(** * NeuroR [repair/unravel.py]: unravelling of neuronal morphologies

    A shallow embedding of [_get_principal_direction], [unravel] and
    [unravel_all], and the properties of the specification that hold of
    them.

    - Numbers.  The module computes on numpy floating-point arrays.  The
      embedding is parametric in the scalar type ([Scalar]): every structural
      property below holds whatever the arithmetic is.  Properties about the
      values computed are stated at the instance of exact real numbers; the
      binary32 arithmetic of the arrays is a second instance, for what does
      not hold in it.
    - numpy and morphio.  [numpy.linalg.eig] is a parameter [eig] of the
      development; where a property depends on what it returns, its
      documented contract ([eig_correct_at]) is a hypothesis.  The file
      reader and writer of morphio are parameters too.
    - Memory.  numpy arrays live in a heap, [sec.points] is an alias of the
      array of the section, slices are views, and [np.copy] allocates. *)

From Stdlib Require Import Floats.
From Stdlib Require Import Reals Lra Psatz.
From stdpp Require Import gmap strings list fin_maps.

Set Default Proof Using "Type".

(** ** Scalars, 3-vectors and 3x3 matrices *)

Class Scalar (F : Type) := {
  f0 : F;
  fadd : F → F → F;
  fsub : F → F → F;
  fmul : F → F → F;
  fdiv : F → F → F;
  fsqrt : F → F;
  (* np.sign *)
  fsign : F → F;
  (* the conversion of a count to a scalar, as in the division of np.mean *)
  fof_nat : nat → F;
  (* [fge a b]: a >= b *)
  fge : F → F → bool
}.

Inductive axis := ax0 | ax1 | ax2.

Section Linalg.
Context {F : Type} {SF : Scalar F}.

Record vec3 := V3 { vx : F; vy : F; vz : F }.

(* rows of a 3x3 array *)
Record mat3 := M3 { row0 : vec3; row1 : vec3; row2 : vec3 }.

(* an array of shape (N, 3): the list of its rows *)
Local Abbreviation ndarray := (list vec3).

Definition coord (v : vec3) (a : axis) : F :=
  match a with ax0 => vx v | ax1 => vy v | ax2 => vz v end.

Definition vzero : vec3 := V3 f0 f0 f0.
Definition vadd (a b : vec3) : vec3 :=
  V3 (fadd (vx a) (vx b)) (fadd (vy a) (vy b)) (fadd (vz a) (vz b)).
Definition vsub (a b : vec3) : vec3 :=
  V3 (fsub (vx a) (vx b)) (fsub (vy a) (vy b)) (fsub (vz a) (vz b)).
(* v * c and v / c for a scalar c *)
Definition vscale (v : vec3) (c : F) : vec3 :=
  V3 (fmul (vx v) c) (fmul (vy v) c) (fmul (vz v) c).
Definition vdiv (v : vec3) (c : F) : vec3 :=
  V3 (fdiv (vx v) c) (fdiv (vy v) c) (fdiv (vz v) c).

Definition fsum (l : list F) : F := foldl fadd f0 l.

(* np.dot on two 1-d arrays *)
Definition dot (a b : vec3) : F :=
  fsum [fmul (vx a) (vx b); fmul (vy a) (vy b); fmul (vz a) (vz b)].

(* np.linalg.norm on a 1-d array *)
Definition norm (a : vec3) : F := fsqrt (dot a a).

(* np.mean(X, axis=0) *)
Definition mean0 (X : ndarray) : vec3 :=
  vdiv (foldl vadd vzero X) (fof_nat (length X)).

(* X - m, the row m broadcast over the rows of X *)
Definition sub_rows (X : ndarray) (m : vec3) : ndarray :=
  (λ p, vsub p m) <$> X.

(* np.dot(X.T, X) *)
Definition gram_entry (X : ndarray) (a b : axis) : F :=
  fsum ((λ p, fmul (coord p a) (coord p b)) <$> X).
Definition gram_row (X : ndarray) (a : axis) : vec3 :=
  V3 (gram_entry X a ax0) (gram_entry X a ax1) (gram_entry X a ax2).
Definition gram (X : ndarray) : mat3 :=
  M3 (gram_row X ax0) (gram_row X ax1) (gram_row X ax2).

(* v[:, j] *)
Definition column (v : mat3) (j : axis) : vec3 :=
  V3 (coord (row0 v) j) (coord (row1 v) j) (coord (row2 v) j).

(* w.argmax(): the first index of a largest entry *)
Definition argmax (w : vec3) : axis :=
  if fge (vx w) (vy w) && fge (vx w) (vz w) then ax0
  else if fge (vy w) (vz w) then ax1
  else ax2.

(* C[a, b] *)
Definition entry (C : mat3) (a b : axis) : F :=
  coord (match a with ax0 => row0 C | ax1 => row1 C | ax2 => row2 C end) b.

(* C x, for the contract of the eigen-solver *)
Definition mulv (C : mat3) (x : vec3) : vec3 :=
  V3 (dot (row0 C) x) (dot (row1 C) x) (dot (row2 C) x).
End Linalg.

Arguments vec3 F : clear implicits.
Arguments mat3 F : clear implicits.
Abbreviation ndarray F := (list (vec3 F)).

(** ** Python values, exceptions and the heap of numpy arrays *)

(* the exceptions, all of them instances of Exception; SystemError stands
   for the use of an array that is not in the heap, which the source never
   does *)
Inductive exn :=
  | IndexError
  | LinAlgError
  | SystemError
  | MorphioError (what : string)
  | OSError (what : string).

Inductive log_record :=
  | Info (msg : string)
  | Warning (msg : string)
  | WarningExc (e : exn).

Abbreviation loc := positive.

(* the slice a[start:stop] of the array at [base], a view and not a copy *)
Record view := View { base : loc; start : Z; stop : Z }.

(* how Python clamps a slice index on a sequence of length n *)
Definition slice_index (n : nat) (j : Z) : nat :=
  Z.to_nat (if (j <? 0)%Z then Z.max 0 (j + Z.of_nat n) else Z.min j (Z.of_nat n)).

Definition py_slice {A} (l : list A) (a b : Z) : list A :=
  take (slice_index (length l) b - slice_index (length l) a)
       (drop (slice_index (length l) a) l).

Section Python.
Context {F : Type} {SF : Scalar F}.

(* a section of a morphology: the index of its parent in iteration order
   (None for a root) and its points *)
Record section_data := SectionData {
  sparent : option nat;
  spoints : list (vec3 F)
}.

(* a section of the immutable morphology: [sec_points] is the array that
   [sec.points] gives *)
Record section := ISection {
  sec_parent : option nat;
  sec_points : loc
}.

Record world := World {
  heap : gmap loc (ndarray F);
  logs : list log_record;
  outdir : gmap string (list section_data)
}.

Definition set_heap (f : gmap loc (ndarray F) → gmap loc (ndarray F)) (σ : world) : world :=
  World (f (heap σ)) (logs σ) (outdir σ).

Definition M (A : Type) : Type := world → (exn + A) * world.

#[export] Instance M_ret : MRet M := λ A a σ, (inr a, σ).
#[export] Instance M_bind : MBind M := λ A B f m σ,
  match m σ with
  | (inl e, σ') => (inl e, σ')
  | (inr a, σ') => f a σ'
  end.

Definition raise {A} (e : exn) : M A := λ σ, (inl e, σ).

Fixpoint foldM {A B} (f : A → B → M A) (a : A) (l : list B) : M A :=
  match l with
  | [] => mret a
  | b :: l => a' ← f a b; foldM f a' l
  end.

Definition alloc (a : ndarray F) : M loc := λ σ,
  let l := fresh (dom (heap σ)) in (inr l, set_heap <[l := a]> σ).

Definition load (l : loc) : M (ndarray F) := λ σ,
  match heap σ !! l with
  | Some a => (inr a, σ)
  | None => (inl SystemError, σ)
  end.

Definition store (l : loc) (a : ndarray F) : M () := λ σ,
  (inr (), set_heap <[l := a]> σ).

(* seq[i] for i >= 0, and seq[-1] *)
Definition getitem {A} (l : list A) (i : nat) : M A :=
  match l !! i with Some x => mret x | None => raise IndexError end.
Definition getitem_last {A} (l : list A) : M A :=
  match last l with Some x => mret x | None => raise IndexError end.

(* np.copy(np.asarray(v)) *)
Definition np_copy (v : view) : M loc :=
  a ← load (base v); alloc (py_slice a (start v) (stop v)).
(* np.mean(X, axis=0) *)
Definition np_mean0 (X : loc) : M (vec3 F) :=
  a ← load X; mret (mean0 a).
(* X -= m, in place *)
Definition np_isub (X : loc) (m : vec3 F) : M () :=
  a ← load X; store X (sub_rows a m).
(* np.dot(X.T, X) *)
Definition np_gram (X : loc) : M (mat3 F) :=
  a ← load X; mret (gram a).
(* len(a) and a[i] *)
Definition np_len (l : loc) : M nat :=
  a ← load l; mret (length a).
Definition np_getitem (l : loc) (i : nat) : M (vec3 F) :=
  a ← load l; getitem a i.

(** ** The source *)

(* np.linalg.eig: the eigenvalues and the matrix whose columns are the
   eigenvectors, or None where it raises LinAlgError *)
Variable eig : mat3 F → option (vec3 F * mat3 F).
(* the parser of morphio.Morphology(filename): the sections in the order
   of iter() *)
Variable read_morphology : string → exn + list section_data.

Definition linalg_eig (C : mat3 F) : M (vec3 F * mat3 F) :=
  match eig C with Some r => mret r | None => raise LinAlgError end.

Definition _get_principal_direction (points : view) : M (vec3 F) :=
  X ← np_copy points;
  m ← np_mean0 X;
  np_isub X m;;
  C ← np_gram X;
  '(w, v) ← linalg_eig C;
  mret (column v (argmax w)).

Definition window_start (window_center window_half_length : Z) : Z :=
  Z.max 0 (window_center - window_half_length - 1).
Definition window_end (point_count window_center window_half_length : Z) : Z :=
  Z.min point_count (window_center + window_half_length + 1).

(* direction is a view of a column of v, an array that eig has just made and
   that nothing else refers to: the two products in place are on values.
   direction *= np.linalg.norm(segment) / np.linalg.norm(direction) *)
Definition rescale (segment direction : vec3 F) : vec3 F :=
  vscale direction (fdiv (norm segment) (norm direction)).
(* direction *= np.sign(np.dot(segment, direction)) *)
Definition resolve_sign (segment direction : vec3 F) : vec3 F :=
  vscale direction (fsign (dot segment direction)).

(* the body of the loop over window_center *)
Definition unravel_point (points : loc) (point_count : nat) (window_half_length : Z)
    (unravelled_points : list (vec3 F)) (window_center : nat) : M (list (vec3 F)) :=
  let window_start := window_start (Z.of_nat window_center) window_half_length in
  let window_end := window_end (Z.of_nat point_count) (Z.of_nat window_center) window_half_length in
  direction ← _get_principal_direction (View points window_start window_end);
  p ← np_getitem points window_center;
  q ← np_getitem points (window_center - 1);
  let segment := vsub p q in
  let direction := rescale segment direction in
  let direction := resolve_sign segment direction in
  prev ← getitem unravelled_points (window_center - 1);
  mret (unravelled_points ++ [vadd direction prev]).

(* the body of the loop over the sections; [k] is the position of sec in
   morph.iter() and of new_section in new_morph.iter(), and new_section is
   read from the morphology as the sections before it have left it *)
Definition unravel_section (window_half_length : Z) (new_morph : list section_data)
    (ksec : nat * section) : M (list section_data) :=
  let '(k, sec) := ksec in
  new_section ← getitem new_morph k;
  let points := sec_points sec in
  point_count ← np_len points;
  first ← match sparent new_section with
          | None => getitem (spoints new_section) 0
          | Some p => new_parent ← getitem new_morph p; getitem_last (spoints new_parent)
          end;
  unravelled_points ←
    foldM (unravel_point points point_count window_half_length) [first]
          (seq 1 (point_count - 1));
  mret (<[k := SectionData (sparent new_section) unravelled_points]> new_morph).

(* morphio.Morphology(filename): the arrays of the sections are allocated *)
Definition load_section (d : section_data) : M section :=
  l ← alloc (spoints d); mret (ISection (sparent d) l).
Fixpoint mapM {A B} (f : A → M B) (l : list A) : M (list B) :=
  match l with
  | [] => mret []
  | a :: l => b ← f a; bs ← mapM f l; mret (b :: bs)
  end.
Definition Morphology (filename : string) : M (list section) :=
  match read_morphology filename with
  | inl e => raise e
  | inr ds => mapM load_section ds
  end.

(* morphio.mut.Morphology(morph): a copy, section by section *)
Definition copy_section (sec : section) : M section_data :=
  a ← load (sec_points sec); mret (SectionData (sec_parent sec) a).
Definition mut_Morphology (morph : list section) : M (list section_data) :=
  mapM copy_section morph.

(* lines 44-71, from the morphology that line 43 has read *)
Definition unravel_morph (morph : list section) (window_half_length : Z)
    : M (list section_data) :=
  new_morph ← mut_Morphology morph;
  foldM (unravel_section window_half_length) new_morph
        (zip (seq 0 (length morph)) morph).

Definition unravel (filename : string) (window_half_length : Z) : M (list section_data) :=
  morph ← Morphology filename;
  unravel_morph morph window_half_length.

(* σ' has the arrays of σ unchanged, and the same log and output files *)
Definition extends (σ σ' : world) : Prop :=
  heap σ ⊆ heap σ' ∧ logs σ' = logs σ ∧ outdir σ' = outdir σ.

(* the sections of morph are those of ds, their points in the heap *)
Definition represents (σ : world) (morph : list section) (ds : list section_data) : Prop :=
  Forall2 (λ sec d, sec_parent sec = sparent d ∧
                    heap σ !! sec_points sec = Some (spoints d)) morph ds.

(** ** What the source computes, without the heap

    The functions below are what [unravel] returns, as functions of the
    sections read from the file: the lemmas [run_...] prove that the source
    above computes them, whatever the heap is. *)

Definition bindE {A B} (m : exn + A) (f : A → exn + B) : exn + B :=
  match m with inl e => inl e | inr a => f a end.
Definition item {A} (l : list A) (i : nat) : exn + A :=
  match l !! i with Some x => inr x | None => inl IndexError end.
Definition item_last {A} (l : list A) : exn + A :=
  match last l with Some x => inr x | None => inl IndexError end.
Fixpoint foldE {A B} (f : A → B → exn + A) (a : A) (l : list B) : exn + A :=
  match l with
  | [] => inr a
  | b :: l => bindE (f a b) (λ a', foldE f a' l)
  end.

(* the array that _get_principal_direction leaves in X *)
Definition centred (pts : ndarray F) : ndarray F := sub_rows pts (mean0 pts).

Definition principal_direction (pts : ndarray F) : exn + vec3 F :=
  match eig (gram (centred pts)) with
  | Some (w, v) => inr (column v (argmax w))
  | None => inl LinAlgError
  end.

Definition window (pts : ndarray F) (window_center : nat) (window_half_length : Z)
    : ndarray F :=
  py_slice pts (window_start (Z.of_nat window_center) window_half_length)
    (window_end (Z.of_nat (length pts)) (Z.of_nat window_center) window_half_length).

(* what is added to the previous unravelled point *)
Definition offset (segment direction : vec3 F) : vec3 F :=
  resolve_sign segment (rescale segment direction).

Definition next_points (pts : ndarray F) (window_half_length : Z)
    (unravelled_points : list (vec3 F)) (window_center : nat) : exn + list (vec3 F) :=
  bindE (principal_direction (window pts window_center window_half_length)) (λ direction,
  bindE (item pts window_center) (λ p,
  bindE (item pts (window_center - 1)) (λ q,
  bindE (item unravelled_points (window_center - 1)) (λ prev,
  inr (unravelled_points ++ [vadd (offset (vsub p q) direction) prev]))))).

(* point i of the unravelled points ups comes from point i - 1 as lines
   55-68 say *)
Definition segment_step (pts : ndarray F) (window_half_length : Z)
    (ups : list (vec3 F)) (i : nat) : Prop :=
  ∃ direction p q prev,
    principal_direction (window pts i window_half_length) = inr direction ∧
    pts !! i = Some p ∧ pts !! (i - 1) = Some q ∧
    ups !! (i - 1) = Some prev ∧
    ups !! i = Some (vadd (offset (vsub p q) direction) prev).

(* the eigen-solver returns on every window of the section *)
Definition eig_returns (window_half_length : Z) (pts : ndarray F) : Prop :=
  ∀ i, 1 ≤ i < length pts →
    is_Some (eig (gram (centred (window pts i window_half_length)))).

Definition unravelled (pts : ndarray F) (window_half_length : Z) (first : vec3 F)
    : exn + list (vec3 F) :=
  foldE (next_points pts window_half_length) [first] (seq 1 (length pts - 1)).

Definition first_point (new_morph : list section_data) (new_section : section_data)
    : exn + vec3 F :=
  match sparent new_section with
  | None => item (spoints new_section) 0
  | Some p => bindE (item new_morph p) (λ new_parent, item_last (spoints new_parent))
  end.

Definition next_morph (window_half_length : Z) (new_morph : list section_data)
    (kpts : nat * ndarray F) : exn + list section_data :=
  let '(k, pts) := kpts in
  bindE (item new_morph k) (λ new_section,
  bindE (first_point new_morph new_section) (λ first,
  bindE (unravelled pts window_half_length first) (λ unravelled_points,
  inr (<[k := SectionData (sparent new_section) unravelled_points]> new_morph)))).

Definition unravelled_morph (ds : list section_data) (window_half_length : Z)
    : exn + list section_data :=
  foldE (next_morph window_half_length) ds (zip (seq 0 (length ds)) (spoints <$> ds)).

Definition unravelled_file (filename : string) (window_half_length : Z)
    : exn + list section_data :=
  bindE (read_morphology filename) (λ ds, unravelled_morph ds window_half_length).

(* f on what is returned; what is raised stays *)
Definition map_result {A B} (f : A → B) (r : exn + A) : exn + B :=
  match r with inl e => inl e | inr a => inr (f a) end.

(* the points, and the points of a section, moved by t *)
Definition translate (t : vec3 F) (pts : ndarray F) : ndarray F :=
  (λ p, vadd p t) <$> pts.
Definition translate_section (t : vec3 F) (d : section_data) : section_data :=
  SectionData (sparent d) (translate t (spoints d)).
End Python.

Arguments section_data F : clear implicits.
Arguments world F : clear implicits.
Arguments M F A : clear implicits.

Section Batch.
Context {F : Type} {SF : Scalar F}.
Variable eig : mat3 F → option (vec3 F * mat3 F).
Variable read_morphology : string → exn + list (section_data F).
(* morph.write(outfilename): None when the file is written, the exception
   otherwise *)
Variable write_morphology : list (section_data F) → string → option exn.
(* os.listdir, repair.utils.good_ext, os.path.join and os.path.basename *)
Variable listdir : string → exn + list string.
Variable good_ext : string → bool.
Variable path_join : string → string → string.
Variable basename : string → string.

(* L.info and L.warning *)
Definition log (r : log_record) : M F () := λ σ : world F,
  (inr (), World (heap σ) (logs σ ++ [r]) (outdir σ)).

Definition write (m : list (section_data F)) (outfilename : string) : M F () := λ σ : world F,
  match write_morphology m outfilename with
  | Some e => (inl e, σ)
  | None => (inr (), World (heap σ) (logs σ) (<[outfilename := m]> (outdir σ)))
  end.

(* try: body / except Exception as e: handler e *)
Definition try_except {A} (body : M F A) (handler : exn → M F A) : M F A := λ σ,
  match body σ with
  | (inl e, σ') => handler e σ'
  | (inr a, σ') => (inr a, σ')
  end.

Definition forM {B} (l : list B) (body : B → M F ()) : M F () :=
  foldM (λ _ b, body b) () l.

(* the body of the loop over the files *)
Definition unravel_one (input_dir output_dir : string) (window_half_length : Z)
    (f : string) : M F () :=
  log (Info f);;
  let inputfilename := path_join input_dir f in
  let outfilename := path_join output_dir (basename f) in
  try_except
    (m ← unravel eig read_morphology inputfilename window_half_length;
     write m outfilename)
    (λ e, log (Warning ("Unravelling " +:+ f +:+ " failed"));;
          log (WarningExc e)).

Definition unravel_all (input_dir output_dir : string) (window_half_length : Z) : M F () :=
  match listdir input_dir with
  | inl e => raise e
  | inr names =>
      let files := List.filter good_ext names in
      forM files (unravel_one input_dir output_dir window_half_length)
  end.

(* what the loop does with one file: the morphology written, or the
   exception caught *)
Definition outcome (input_dir output_dir : string) (window_half_length : Z)
    (f : string) : exn + list (section_data F) :=
  bindE (unravelled_file eig read_morphology (path_join input_dir f) window_half_length)
    (λ m, match write_morphology m (path_join output_dir (basename f)) with
          | Some e => inl e
          | None => inr m
          end).

Definition records_of (input_dir output_dir : string) (window_half_length : Z)
    (f : string) : list log_record :=
  Info f ::
  match outcome input_dir output_dir window_half_length f with
  | inl e => [Warning ("Unravelling " +:+ f +:+ " failed"); WarningExc e]
  | inr _ => []
  end.

Definition written (input_dir output_dir : string) (window_half_length : Z)
    (out : gmap string (list (section_data F))) (f : string) : gmap string (list (section_data F)) :=
  match outcome input_dir output_dir window_half_length f with
  | inl _ => out
  | inr m => <[path_join output_dir (basename f) := m]> out
  end.
End Batch.

(** ** Exact real arithmetic *)

Definition Rsign (x : R) : R :=
  if Rlt_dec 0 x then 1%R else if Rlt_dec x 0 then (-1)%R else 0%R.

Definition Rgeb (a b : R) : bool := if Rle_dec b a then true else false.

#[export] Instance R_scalar : Scalar R := {|
  f0 := 0%R;
  fadd := Rplus;
  fsub := Rminus;
  fmul := Rmult;
  fdiv := Rdiv;
  fsqrt := sqrt;
  fsign := Rsign;
  fof_nat := INR;
  fge := Rgeb
|}.

(* the contract of numpy.linalg.eig on a real matrix with real eigenvalues:
   w holds the eigenvalues, each one of the matrix is among them, and column
   j of v is an eigenvector of unit length for w[j] *)
Definition eigenpair (C : mat3 R) (ev : R) (x : vec3 R) : Prop :=
  mulv C x = vscale x ev.

Definition eig_correct (C : mat3 R) (w : vec3 R) (v : mat3 R) : Prop :=
  (∀ j, eigenpair C (coord w j) (column v j) ∧ dot (column v j) (column v j) = 1%R) ∧
  (∀ ev x, x ≠ vzero → eigenpair C ev x → ∃ j, coord w j = ev).

Definition eig_correct_at (eig : mat3 R → option (vec3 R * mat3 R)) (C : mat3 R) : Prop :=
  ∃ w v, eig C = Some (w, v) ∧ eig_correct C w v.

(* the two ends of every segment differ, and the eigen-solver is right on
   the matrix of the two *)
Definition segments_ok (eig : mat3 R → option (vec3 R * mat3 R)) (pts : ndarray R)
    : Prop :=
  ∀ (i : nat) (p q : vec3 R),
    1 ≤ i → pts !! i = Some p → pts !! (i - 1) = Some q →
    p ≠ q ∧ eig_correct_at eig (gram (centred [q; p])).

Definition diag (a b c : R) : mat3 R :=
  M3 (V3 a 0%R 0%R) (V3 0%R b 0%R) (V3 0%R 0%R c).

(* g u uT *)
Definition rank_one (g : R) (u : vec3 R) : mat3 R :=
  M3 (vscale u (g * vx u)%R) (vscale u (g * vy u)%R) (vscale u (g * vz u)%R).

(* an eigen-solver that is right on diagonal matrices: the diagonal and the
   identity *)
Definition eig_diag (C : mat3 R) : option (vec3 R * mat3 R) :=
  Some (V3 (vx (row0 C)) (vy (row1 C)) (vz (row2 C)), diag 1 1 1).

(* the straight section of the scenario, and a section whose first segment
   is orthogonal to the principal direction of its points *)
Definition line : ndarray R :=
  [V3 0 0 0; V3 1 0 0; V3 2 0 0; V3 3 0 0]%R.
Definition bent : ndarray R :=
  [V3 0 (-1) 0; V3 0 1 0; V3 3 0 0]%R.

(* a root and its child, on a line; a root of one point with two children,
   of which the first has no points *)
Definition twig : list (section_data R) :=
  [SectionData None [V3 0 0 0; V3 1 0 0];
   SectionData (Some 0%nat) [V3 1 0 0; V3 2 0 0]]%R.
Definition gap : list (section_data R) :=
  [SectionData None [V3 0 0 0];
   SectionData (Some 0%nat) [];
   SectionData (Some 0%nat) [V3 0 0 0; V3 1 0 0]]%R.

Definition empty_world : world R := World ∅ [] ∅.

(* a directory of three files, of which one is not a morphology and one
   cannot be parsed *)
Definition example_listdir (dir : string) : exn + list string :=
  inr ["bad.swc"; "notes.txt"; "good.swc"].
Definition example_good_ext (f : string) : bool :=
  bool_decide (f ≠ "notes.txt").
Definition example_join (dir f : string) : string := dir +:+ "/" +:+ f.
Definition example_basename (f : string) : string := f.
Definition example_read (path : string) : exn + list (section_data R) :=
  if decide (path = "in/good.swc") then inr twig else inl (MorphioError "corrupt").
Definition example_write (m : list (section_data R)) (path : string) : option exn :=
  None.

(* a second file with the tree of the first one moved by (1, 1, 1), and a
   directory that cannot be listed *)
Definition shift : vec3 R := (V3 1 1 1)%R.
Definition example_read_moved (path : string) : exn + list (section_data R) :=
  if decide (path = "moved.swc") then inr (translate_section shift <$> twig)
  else inr twig.
Definition failing_listdir (dir : string) : exn + list string :=
  inl (OSError "no such directory").

(** ** The arithmetic of the arrays: binary32 *)

(* The points of morphio are binary32 floats, and numpy computes on them in
   binary32.  A binary32 value is a binary64 float here, and an operation is
   the binary64 operation followed by the rounding to binary32, which is the
   binary32 operation for +, -, *, / and the square root (53 >= 2 * 24 + 2). *)

(* to the nearest integer, ties to even, for |y| < 2^51 *)
Definition round_int (y : float) : float :=
  ((y + 0x1.8p+52) - 0x1.8p+52)%float.

(* to the nearest binary32 value, ties to even: 24 bits, the least exponent
   of a bit -149, infinite from 2^128 on *)
Definition round32 (x : float) : float :=
  if (is_nan x || is_infinity x || (x =? 0)%float)%bool then x
  else
    let '(m, e) := Z.frexp x in
    let q := Z.max (e - 24) (-149) in
    let z := Z.ldexp (round_int (Z.ldexp x (- q))) q in
    if (0x1p+128 <=? PrimFloat.abs z)%float
    then (if (z <? 0)%float then neg_infinity else infinity)
    else z.

(* np.sign *)
Definition sign32 (x : float) : float :=
  if is_nan x then x
  else if (0 <? x)%float then 1%float
  else if (x <? 0)%float then (-1)%float
  else 0%float.

#[export] Instance float32_scalar : Scalar float := {|
  f0 := 0%float;
  fadd a b := round32 (a + b)%float;
  fsub a b := round32 (a - b)%float;
  fmul a b := round32 (a * b)%float;
  fdiv a b := round32 (a / b)%float;
  fsqrt a := round32 (PrimFloat.sqrt a);
  fsign := sign32;
  fof_nat n := round32 (of_uint63 (Uint63.of_Z (Z.of_nat n)));
  fge a b := (b <=? a)%float
|}.

Definition finite3 (v : vec3 float) : bool :=
  is_finite (vx v) && is_finite (vy v) && is_finite (vz v).

(* numpy.linalg.eig raises LinAlgError on an array that holds an infinity or
   a nan; on the other arrays this one returns the diagonal and the identity,
   as eig_diag does *)
Definition eig32 (C : mat3 float) : option (vec3 float * mat3 float) :=
  if finite3 (row0 C) && finite3 (row1 C) && finite3 (row2 C)
  then Some (V3 (vx (row0 C)) (vy (row1 C)) (vz (row2 C)),
             M3 (V3 1 0 0) (V3 0 1 0) (V3 0 0 1))%float
  else None.

(* two points 1e20 apart, 1e20 as binary32 has it *)
Definition far : ndarray float :=
  [V3 0 0 0; V3 100000002004087734272 0 0]%float.

(** * Properties *)

(** ** The heap only grows *)

Section Refinement.
Context {F : Type} {SF : Scalar F}.
Variable eig : mat3 F → option (vec3 F * mat3 F).
Variable read_morphology : string → exn + list (section_data F).
Implicit Types (σ : world F) (ds new_morph : list (section_data F))
  (pts acc : ndarray F) (H : Z).

Lemma extends_refl σ : extends σ σ.
Proof. by split. Qed.

Lemma extends_trans σ1 σ2 σ3 : extends σ1 σ2 → extends σ2 σ3 → extends σ1 σ3.
Proof.
  intros (H1 & H2 & H3) (H4 & H5 & H6). split; [by etrans|]. split; congruence.
Qed.

Lemma extends_lookup σ σ' l a :
  extends σ σ' → heap σ !! l = Some a → heap σ' !! l = Some a.
Proof. intros [Hsub _] Hl. by eapply lookup_weaken. Qed.

Lemma extends_alloc σ (a : ndarray F) :
  extends σ (set_heap <[fresh (dom (heap σ)) := a]> σ).
Proof.
  split; [|done]. simpl. apply insert_subseteq.
  apply not_elem_of_dom, is_fresh.
Qed.

Lemma fresh_lookup_ne (σ : world F) l (a : ndarray F) :
  heap σ !! l = Some a → fresh (dom (heap σ)) ≠ l.
Proof.
  intros Hl Heq. apply (is_fresh (dom (heap σ))).
  rewrite Heq. apply elem_of_dom. eauto.
Qed.

(** ** The source computes the heap-free functions *)

Lemma run_get_principal_direction σ l a s e :
  heap σ !! l = Some a →
  _get_principal_direction eig (View l s e) σ =
    (principal_direction eig (py_slice a s e),
     set_heap <[fresh (dom (heap σ)) := centred (py_slice a s e)]> σ).
Proof.
  intros Hl.
  unfold _get_principal_direction, np_copy, np_mean0, np_isub, np_gram, linalg_eig,
    principal_direction, load, alloc, store, raise, mbind, M_bind, mret, M_ret.
  unfold set_heap. simpl. rewrite Hl. simpl.
  repeat (rewrite ?lookup_insert_eq, ?insert_insert_eq; simpl).
  fold (centred (py_slice a s e)).
  destruct (eig _) as [[w v]|]; reflexivity.
Qed.

Lemma run_unravel_point σ l pts H acc i :
  heap σ !! l = Some pts →
  unravel_point eig l (length pts) H acc i σ =
    (next_points eig pts H acc i,
     set_heap <[fresh (dom (heap σ)) := centred (window pts i H)]> σ).
Proof.
  intros Hl. unfold unravel_point, next_points.
  unfold mbind at 1. unfold M_bind at 1.
  rewrite (run_get_principal_direction _ _ _ _ _ Hl). fold (window pts i H).
  destruct (principal_direction eig (window pts i H)) as [e|d]; [done|].
  simpl. unfold np_getitem, getitem, item, load, raise, mbind, M_bind, mret, M_ret.
  simpl. rewrite (lookup_insert_ne _ _ _ _ (fresh_lookup_ne _ _ _ Hl)), Hl.
  destruct (pts !! i) as [p|]; [|done]. simpl.
  rewrite (lookup_insert_ne _ _ _ _ (fresh_lookup_ne _ _ _ Hl)), Hl.
  destruct (pts !! (i - 1)) as [q|]; [|done]. simpl.
  destruct (acc !! (i - 1)) as [prev|]; done.
Qed.

Lemma run_unravel_points σ l pts H acc (idx : list nat) :
  heap σ !! l = Some pts →
  ∃ σ', foldM (unravel_point eig l (length pts) H) acc idx σ =
          (foldE (next_points eig pts H) acc idx, σ') ∧ extends σ σ'.
Proof.
  revert σ acc. induction idx as [|i idx IH]; intros σ acc Hl.
  - exists σ. split; [done|apply extends_refl].
  - simpl. unfold mbind, M_bind. rewrite (run_unravel_point _ _ _ _ _ _ Hl).
    pose proof (extends_alloc σ (centred (window pts i H))) as Hext.
    destruct (next_points eig pts H acc i) as [e|acc']; simpl.
    + eexists. split; [done|apply Hext].
    + destruct (IH _ acc' (extends_lookup _ _ _ _ Hext Hl)) as (σ' & Hrun & Hext').
      exists σ'. split; [done|by eapply extends_trans].
Qed.

Lemma run_bind {A B} (m : M F A) (f : A → M F B) σ :
  (m ≫= f) σ = match m σ with
               | (inl e, σ') => (inl e, σ')
               | (inr a, σ') => f a σ'
               end.
Proof. reflexivity. Qed.

Lemma run_getitem {A} (l : list A) i (σ : world F) : getitem l i σ = (item l i, σ).
Proof. unfold getitem, item. by destruct (l !! i). Qed.

Lemma run_getitem_last {A} (l : list A) (σ : world F) :
  getitem_last l σ = (item_last l, σ).
Proof. unfold getitem_last, item_last. by destruct (last l). Qed.

Lemma run_first_point (σ : world F) (new_morph : list (section_data F)) new_section :
  (match sparent new_section return M F (vec3 F) with
   | None => getitem (spoints new_section) 0
   | Some p => new_parent ← getitem new_morph p; getitem_last (spoints new_parent)
   end) σ = (first_point new_morph new_section, σ).
Proof.
  unfold first_point. destruct (sparent new_section) as [p|].
  - rewrite run_bind, run_getitem. destruct (item new_morph p) as [e|par]; [done|].
    apply run_getitem_last.
  - apply run_getitem.
Qed.

Lemma run_unravel_section σ H new_morph k sec pts :
  heap σ !! sec_points sec = Some pts →
  ∃ σ', unravel_section eig H new_morph (k, sec) σ =
          (next_morph eig H new_morph (k, pts), σ') ∧ extends σ σ'.
Proof.
  intros Hl. unfold unravel_section, next_morph.
  rewrite run_bind, run_getitem.
  destruct (item new_morph k) as [e|new_section]; simpl;
    [eexists; split; [done|apply extends_refl]|].
  rewrite run_bind. unfold np_len. rewrite run_bind. unfold load. rewrite Hl.
  unfold mret at 1. unfold M_ret at 1.
  rewrite run_bind, run_first_point.
  destruct (first_point new_morph new_section) as [e|first]; simpl;
    [eexists; split; [done|apply extends_refl]|].
  destruct (run_unravel_points σ _ pts H [first] (seq 1 (length pts - 1)) Hl)
    as (σ' & Hrun & Hext).
  rewrite run_bind, Hrun. unfold unravelled.
  destruct (foldE _ _ _) as [e|ups]; simpl; eauto.
Qed.

Lemma represents_extends σ σ' morph ds :
  extends σ σ' → represents σ morph ds → represents σ' morph ds.
Proof.
  intros Hext Hrep. eapply Forall2_impl; [apply Hrep|].
  intros sec d [Hp Hl]. split; [done|by eapply extends_lookup].
Qed.

Lemma run_mut_Morphology σ morph ds :
  represents σ morph ds → mut_Morphology morph σ = (inr ds, σ).
Proof.
  unfold mut_Morphology. induction 1 as [|sec d morph ds [Hp Hl] _ IH]; [done|].
  simpl. rewrite run_bind. unfold copy_section at 1. rewrite run_bind.
  unfold load. rewrite Hl. unfold mret at 1. unfold M_ret at 1.
  rewrite run_bind, IH. rewrite Hp. by destruct d.
Qed.

Lemma run_load_sections σ ds :
  ∃ morph σ', mapM load_section ds σ = (inr morph, σ') ∧
              represents σ' morph ds ∧ extends σ σ'.
Proof.
  revert σ. induction ds as [|d ds IH]; intros σ.
  - exists [], σ. split; [done|]. split; [constructor|apply extends_refl].
  - simpl. rewrite run_bind. unfold load_section at 1. rewrite run_bind.
    unfold alloc. unfold mret at 1. unfold M_ret at 1.
    pose proof (extends_alloc σ (spoints d)) as Hext.
    destruct (IH (set_heap <[fresh (dom (heap σ)) := spoints d]> σ))
      as (morph & σ' & Hrun & Hrep & Hext').
    rewrite run_bind, Hrun. eexists _, σ'. split; [done|].
    split; [|by eapply extends_trans].
    constructor; [|done]. split; [done|]. simpl.
    eapply extends_lookup; [apply Hext'|]. simpl. apply lookup_insert_eq.
Qed.

Lemma run_Morphology σ filename ds :
  read_morphology filename = inr ds →
  ∃ morph σ', Morphology read_morphology filename σ = (inr morph, σ') ∧
              represents σ' morph ds ∧ extends σ σ'.
Proof. intros Hread. unfold Morphology. rewrite Hread. apply run_load_sections. Qed.

Lemma run_unravel_sections σ H morph ds new_morph k0 :
  represents σ morph ds →
  ∃ σ', foldM (unravel_section eig H) new_morph (zip (seq k0 (length morph)) morph) σ =
          (foldE (next_morph eig H) new_morph
             (zip (seq k0 (length ds)) (spoints <$> ds)), σ') ∧
        extends σ σ'.
Proof.
  intros Hrep. revert σ ds new_morph k0 Hrep. unfold represents.
  induction morph as [|sec morph IH]; intros σ ds new_morph k0 Hrep.
  - apply Forall2_nil_inv_l in Hrep as ->. exists σ. split; [done|apply extends_refl].
  - apply Forall2_cons_inv_l in Hrep as (d & ds' & [Hp Hl] & Hrep & ->).
    cbn [foldM foldE zip_with seq length fmap list_fmap]. rewrite run_bind.
    destruct (run_unravel_section σ H new_morph k0 sec _ Hl) as (σ1 & Hrun & Hext1).
    rewrite Hrun. destruct (next_morph _ _ _ _) as [e|new_morph']; cbn [bindE]; [eauto|].
    destruct (IH σ1 ds' new_morph' (S k0) (represents_extends _ _ _ _ Hext1 Hrep))
      as (σ' & Hrun' & Hext').
    exists σ'. split; [done|by eapply extends_trans].
Qed.

Lemma run_unravel_morph σ H morph ds :
  represents σ morph ds →
  ∃ σ', unravel_morph eig morph H σ = (unravelled_morph eig ds H, σ') ∧ extends σ σ'.
Proof.
  intros Hrep. unfold unravel_morph, unravelled_morph.
  rewrite run_bind, (run_mut_Morphology _ _ _ Hrep).
  by apply run_unravel_sections.
Qed.

Lemma run_unravel σ filename H :
  ∃ σ', unravel eig read_morphology filename H σ =
          (unravelled_file eig read_morphology filename H, σ') ∧ extends σ σ'.
Proof.
  unfold unravel, unravelled_file. rewrite run_bind.
  destruct (read_morphology filename) as [e|ds] eqn:Hread.
  - unfold Morphology. rewrite Hread. exists σ. split; [done|apply extends_refl].
  - destruct (run_Morphology σ _ _ Hread) as (morph & σ1 & -> & Hrep & Hext1).
    destruct (run_unravel_morph σ1 H _ _ Hrep) as (σ' & -> & Hext').
    exists σ'. split; [done|by eapply extends_trans].
Qed.
End Refinement.

(** ** The window of a segment *)

Section Window.
Context {F : Type}.
Implicit Types (pts : ndarray F) (H : Z) (i : nat).

Lemma slice_index_nonneg n (j : Z) :
  (0 ≤ j ≤ Z.of_nat n)%Z → slice_index n j = Z.to_nat j.
Proof.
  intros Hj. unfold slice_index.
  destruct (Z.ltb_spec j 0); [lia|]. f_equal. lia.
Qed.

Lemma window_bounds pts H i :
  (0 ≤ H)%Z → 1 ≤ i < length pts →
  (0 ≤ window_start (Z.of_nat i) H ≤ Z.of_nat i - 1)%Z ∧
  (Z.of_nat i + 1 ≤ window_end (Z.of_nat (length pts)) (Z.of_nat i) H
     ≤ Z.of_nat (length pts))%Z.
Proof. intros HH Hi. unfold window_start, window_end. lia. Qed.

Lemma window_take_drop pts H i :
  (0 ≤ H)%Z → 1 ≤ i < length pts →
  window pts i H =
    take (Z.to_nat (window_end (Z.of_nat (length pts)) (Z.of_nat i) H
                    - window_start (Z.of_nat i) H))
         (drop (Z.to_nat (window_start (Z.of_nat i) H)) pts).
Proof.
  intros HH Hi. destruct (window_bounds pts H i HH Hi) as [Hs He].
  unfold window, py_slice. rewrite !slice_index_nonneg by lia.
  f_equal. lia.
Qed.

Lemma window_length pts H i :
  (0 ≤ H)%Z → 1 ≤ i < length pts →
  Z.of_nat (length (window pts i H)) =
    (window_end (Z.of_nat (length pts)) (Z.of_nat i) H - window_start (Z.of_nat i) H)%Z.
Proof.
  intros HH Hi. destruct (window_bounds pts H i HH Hi) as [Hs He].
  rewrite window_take_drop, length_take, length_drop by done. lia.
Qed.

Lemma window_lookup pts H i j :
  (0 ≤ H)%Z → 1 ≤ i < length pts →
  j < length (window pts i H) →
  window pts i H !! j = pts !! (Z.to_nat (window_start (Z.of_nat i) H) + j).
Proof.
  intros HH Hi Hj. pose proof (window_length pts H i HH Hi) as Hlen.
  rewrite window_take_drop by done.
  rewrite lookup_take_lt by lia. apply lookup_drop.
Qed.

(* the two ends of the segment are in the window *)
Lemma window_segment pts H i :
  (0 ≤ H)%Z → 1 ≤ i < length pts →
  ∃ j, window pts i H !! j = pts !! (i - 1) ∧ window pts i H !! S j = pts !! i ∧
       S j < length (window pts i H).
Proof.
  intros HH Hi. destruct (window_bounds pts H i HH Hi) as [Hs He].
  pose proof (window_length pts H i HH Hi) as Hlen.
  exists (i - 1 - Z.to_nat (window_start (Z.of_nat i) H)).
  rewrite !window_lookup by (done || lia).
  split; [f_equal; lia|]. split; [f_equal; lia|lia].
Qed.

Lemma window_zero pts i p q :
  1 ≤ i → pts !! (i - 1) = Some q → pts !! i = Some p →
  window pts i 0 = [q; p].
Proof.
  intros Hi Hq Hp. apply lookup_lt_Some in Hp as Hlt.
  assert (1 ≤ i < length pts) as Hi' by lia.
  pose proof (window_length pts 0 i ltac:(lia) Hi') as Hlen.
  unfold window_start, window_end in Hlen.
  apply list_eq. intros j. destruct (decide (j < 2)) as [Hj|Hj].
  - rewrite window_lookup by (done || lia). unfold window_start.
    destruct j as [|[|j]]; [| |lia]; simpl.
    + rewrite <- Hq. f_equal. lia.
    + rewrite <- Hp. f_equal. lia.
  - rewrite lookup_ge_None_2 by lia. symmetry. apply lookup_ge_None_2. simpl. lia.
Qed.
End Window.

(** ** The points of one section *)

Section Points.
Context {F : Type} {SF : Scalar F}.
Variable eig : mat3 F → option (vec3 F * mat3 F).
Implicit Types (pts acc ups : ndarray F) (H : Z) (i : nat).

Lemma next_points_inr pts H acc i acc' :
  next_points eig pts H acc i = inr acc' →
  ∃ direction p q prev,
    principal_direction eig (window pts i H) = inr direction ∧
    pts !! i = Some p ∧ pts !! (i - 1) = Some q ∧ acc !! (i - 1) = Some prev ∧
    acc' = acc ++ [vadd (offset (vsub p q) direction) prev].
Proof.
  unfold next_points, item.
  destruct (principal_direction eig (window pts i H)) as [|d]; [done|]. simpl.
  destruct (pts !! i) as [p|]; [|done]. simpl.
  destruct (pts !! (i - 1)) as [q|]; [|done]. simpl.
  destruct (acc !! (i - 1)) as [prev|]; [|done]. simpl.
  intros [= <-]. by exists d, p, q, prev.
Qed.

Lemma fold_next_points pts H n a acc ups :
  foldE (next_points eig pts H) acc (seq a n) = inr ups →
  length acc = a → 1 ≤ a →
  length ups = a + n ∧ (∃ rest, ups = acc ++ rest) ∧
  ∀ i, a ≤ i < a + n → segment_step eig pts H ups i.
Proof.
  revert a acc. induction n as [|n IH]; intros a acc Hfold Hlen Ha.
  - simpl in Hfold. injection Hfold as <-. split; [lia|].
    split; [exists []; by rewrite app_nil_r|]. intros i Hi. lia.
  - simpl in Hfold.
    destruct (next_points eig pts H acc a) as [|acc'] eqn:Hstep; [done|].
    simpl in Hfold.
    apply next_points_inr in Hstep as (d & p & q & prev & Hd & Hp & Hq & Hprev & ->).
    apply IH in Hfold as (Hl & [rest ->] & Hsteps);
      [|rewrite length_app; simpl; lia|lia].
    split; [lia|]. split; [eexists; by rewrite <- app_assoc|].
    intros i Hi. destruct (decide (i = a)) as [->|Hne]; [|apply Hsteps; lia].
    exists d, p, q, prev. repeat split; try done.
    + rewrite <- app_assoc. by apply lookup_app_l_Some.
    + apply lookup_app_l_Some. rewrite lookup_app_r by lia.
      by replace (a - length acc) with 0 by lia.
Qed.

(* the unravelled points of a section: as many as it has (one when it has
   none), the first one the given one, each other one as lines 55-68 say *)
Lemma unravelled_inr pts H first ups :
  unravelled eig pts H first = inr ups →
  length ups = max 1 (length pts) ∧ ups !! 0 = Some first ∧
  ∀ i, 1 ≤ i < length pts → segment_step eig pts H ups i.
Proof.
  intros Hu. apply fold_next_points in Hu as (Hl & [rest ->] & Hsteps); [|done..].
  split; [lia|]. split; [done|]. intros i Hi. apply Hsteps. lia.
Qed.

(* they are computed whenever the eigen-solver returns on every window *)
Lemma fold_next_points_total pts H n a acc :
  (∀ i, a ≤ i < a + n → ∃ d, principal_direction eig (window pts i H) = inr d) →
  length acc = a → 1 ≤ a → a + n ≤ max 1 (length pts) →
  ∃ ups, foldE (next_points eig pts H) acc (seq a n) = inr ups.
Proof.
  revert a acc. induction n as [|n IH]; intros a acc Hd Hlen Ha Hn; [by eexists|].
  simpl. unfold next_points at 1, item.
  destruct (Hd a ltac:(lia)) as [d ->]. simpl.
  destruct (lookup_lt_is_Some_2 pts a ltac:(lia)) as [p ->]. simpl.
  destruct (lookup_lt_is_Some_2 pts (a - 1) ltac:(lia)) as [q ->]. simpl.
  destruct (lookup_lt_is_Some_2 acc (a - 1) ltac:(lia)) as [prev ->]. simpl.
  apply IH; [|rewrite length_app; simpl; lia|lia|lia].
  intros i Hi. apply Hd. lia.
Qed.

Lemma unravelled_total pts H first :
  (∀ i, 1 ≤ i < length pts → ∃ d, principal_direction eig (window pts i H) = inr d) →
  ∃ ups, unravelled eig pts H first = inr ups.
Proof.
  intros Hd. apply fold_next_points_total; [|done|done|lia].
  intros i Hi. apply Hd. lia.
Qed.
End Points.

(** ** The sections of a morphology *)

Section Sections.
Context {F : Type} {SF : Scalar F}.
Variable eig : mat3 F → option (vec3 F * mat3 F).
Implicit Types (ds new_morph out rest : list (section_data F)) (H : Z) (k : nat).

Lemma next_morph_inr H new_morph k pts out :
  next_morph eig H new_morph (k, pts) = inr out →
  ∃ new_section first ups,
    new_morph !! k = Some new_section ∧
    first_point new_morph new_section = inr first ∧
    unravelled eig pts H first = inr ups ∧
    out = <[k := SectionData (sparent new_section) ups]> new_morph.
Proof.
  unfold next_morph, item.
  destruct (new_morph !! k) as [new_section|]; [|done]. simpl.
  destruct (first_point new_morph new_section) as [|first] eqn:Hf; [done|]. simpl.
  destruct (unravelled eig pts H first) as [|ups] eqn:Hu; [done|]. simpl.
  intros [= <-]. by exists new_section, first, ups.
Qed.

Lemma fold_next_morph H rest k0 new_morph out :
  foldE (next_morph eig H) new_morph
    (zip (seq k0 (length rest)) (spoints <$> rest)) = inr out →
  (∀ i d, rest !! i = Some d → new_morph !! (k0 + i) = Some d) →
  length out = length new_morph ∧
  (∀ k, k < k0 → out !! k = new_morph !! k) ∧
  (∀ i d, rest !! i = Some d →
     ∃ first ups before,
       out !! (k0 + i) = Some (SectionData (sparent d) ups) ∧
       unravelled eig (spoints d) H first = inr ups ∧
       first_point before d = inr first ∧
       (∀ k, k < k0 + i → before !! k = out !! k)).
Proof.
  revert k0 new_morph. induction rest as [|d rest IH]; intros k0 new_morph Hfold Hnm.
  - simpl in Hfold. injection Hfold as <-. split; [done|]. split; [done|].
    intros i d Hi. by rewrite lookup_nil in Hi.
  - cbn [length seq fmap list_fmap zip_with foldE] in Hfold.
    destruct (next_morph eig H new_morph (k0, spoints d)) as [|nm'] eqn:Hstep; [done|].
    cbn [bindE] in Hfold.
    apply next_morph_inr in Hstep as (d' & first & ups & Hk0 & Hfirst & Hups & ->).
    pose proof (Hnm 0 d eq_refl) as Hk0'. rewrite Nat.add_0_r, Hk0 in Hk0'.
    injection Hk0' as ->.
    apply IH in Hfold as (Hlen & Hbelow & Hrest).
    2:{ intros i d' Hi. rewrite list_lookup_insert_ne by lia.
        replace (S k0 + i) with (k0 + S i) by lia. by apply Hnm. }
    rewrite length_insert in Hlen. split; [done|].
    assert (out !! k0 = Some (SectionData (sparent d) ups)) as Hout.
    { rewrite Hbelow by lia. apply list_lookup_insert_eq. by eapply lookup_lt_Some. }
    split.
    { intros k Hk. rewrite Hbelow by lia. apply list_lookup_insert_ne. lia. }
    intros [|i] d' Hi.
    + injection Hi as <-. exists first, ups, new_morph. rewrite Nat.add_0_r.
      repeat split; try done. intros k Hk. rewrite Hbelow by lia.
      symmetry. apply list_lookup_insert_ne. lia.
    + destruct (Hrest i d' Hi) as (first' & ups' & before & Ho & Hu & Hf & Hb).
      exists first', ups', before. replace (k0 + S i) with (S k0 + i) by lia.
      done.
Qed.

(* every section of the output: the parent it had, the first point read
   from the morphology as the sections before it have left it, the other
   points unravelled from it *)
Lemma unravelled_morph_inr H ds out :
  unravelled_morph eig ds H = inr out →
  length out = length ds ∧
  ∀ k d, ds !! k = Some d →
    ∃ first ups before,
      out !! k = Some (SectionData (sparent d) ups) ∧
      unravelled eig (spoints d) H first = inr ups ∧
      first_point before d = inr first ∧
      (∀ j, j < k → before !! j = out !! j).
Proof.
  intros Hfold. apply fold_next_morph in Hfold as (Hlen & _ & Hsec); [|done].
  split; [done|]. intros k d Hk. exact (Hsec k d Hk).
Qed.
End Sections.

(** ** The tree that unravel returns *)

Section Tree.
Context {F : Type} {SF : Scalar F}.
Variable eig : mat3 F → option (vec3 F * mat3 F).
Variable read_morphology : string → exn + list (section_data F).
Implicit Types (σ : world F) (ds out : list (section_data F)) (H : Z) (k : nat).

Lemma unravel_fst σ filename H :
  (unravel eig read_morphology filename H σ).1 =
    unravelled_file eig read_morphology filename H.
Proof. destruct (run_unravel eig read_morphology σ filename H) as (σ' & -> & _). done. Qed.

Lemma unravel_inr σ filename H ds out :
  read_morphology filename = inr ds →
  (unravel eig read_morphology filename H σ).1 = inr out →
  unravelled_morph eig ds H = inr out.
Proof. intros Hread. rewrite unravel_fst. unfold unravelled_file. by rewrite Hread. Qed.

Lemma first_point_root (before : list (section_data F)) d first :
  sparent d = None → first_point before d = inr first → spoints d !! 0 = Some first.
Proof.
  unfold first_point, item. intros ->.
  destruct (spoints d !! 0); [|done]. by intros [= ->].
Qed.

Lemma first_point_child (before : list (section_data F)) d p first :
  sparent d = Some p → first_point before d = inr first →
  ∃ new_parent, before !! p = Some new_parent ∧ last (spoints new_parent) = Some first.
Proof.
  unfold first_point, item, item_last. intros ->.
  destruct (before !! p) as [par|]; [|done]. simpl.
  destruct (last (spoints par)) eqn:Hlast; [|done]. intros [= ->]. by exists par.
Qed.
End Tree.

(** ** Connectivity, topology, windows and the input tree *)

Section Structure.
Context {F : Type} {SF : Scalar F}.
Variable eig : mat3 F → option (vec3 F * mat3 F).
Variable read_morphology : string → exn + list (section_data F).
Implicit Types (σ : world F) (ds out : list (section_data F)) (H : Z) (k i : nat)
  (pts acc : ndarray F).

(** C2. In the tree that unravel returns, where the sections come in an
    order that has every parent before its children: the first point of a
    root section is the first point it had in the input, and the first point
    of any other section is the last point of its parent in the output. *)
Theorem unravel_connected σ filename H ds out :
  read_morphology filename = inr ds →
  (∀ k d p, ds !! k = Some d → sparent d = Some p → p < k) →
  (unravel eig read_morphology filename H σ).1 = inr out →
  ∀ k d, ds !! k = Some d →
    ∃ new_section first,
      out !! k = Some new_section ∧ sparent new_section = sparent d ∧
      spoints new_section !! 0 = Some first ∧
      match sparent d with
      | None => spoints d !! 0 = Some first
      | Some p => ∃ new_parent,
          out !! p = Some new_parent ∧ last (spoints new_parent) = Some first
      end.
Proof.
  intros Hread Hwf Hrun k d Hk.
  apply (unravel_inr _ _ _ _ _ _ _ Hread) in Hrun.
  apply unravelled_morph_inr in Hrun as [_ Hsec].
  destruct (Hsec k d Hk) as (first & ups & before & Hout & Hups & Hfirst & Hbefore).
  apply unravelled_inr in Hups as (_ & H0 & _).
  exists (SectionData (sparent d) ups), first. repeat split; try done.
  destruct (sparent d) as [p|] eqn:Hp.
  - destruct (first_point_child _ _ _ _ Hp Hfirst) as (par & Hpar & Hlast).
    exists par. split; [|done]. rewrite <- Hbefore; [done|]. by eapply Hwf.
  - by eapply first_point_root.
Qed.

(** C5, as amended. The tree that unravel returns has as many sections as
    the input, every section has the parent it had, and every section that
    has at least one point has as many points as it had. *)
Theorem unravel_topology σ filename H ds out :
  read_morphology filename = inr ds →
  (unravel eig read_morphology filename H σ).1 = inr out →
  length out = length ds ∧
  ∀ k d, ds !! k = Some d →
    ∃ new_section,
      out !! k = Some new_section ∧ sparent new_section = sparent d ∧
      (spoints d ≠ [] → length (spoints new_section) = length (spoints d)).
Proof.
  intros Hread Hrun.
  apply (unravel_inr _ _ _ _ _ _ _ Hread) in Hrun.
  apply unravelled_morph_inr in Hrun as [Hlen Hsec]. split; [done|].
  intros k d Hk.
  destruct (Hsec k d Hk) as (first & ups & before & Hout & Hups & _).
  apply unravelled_inr in Hups as (Hl & _).
  exists (SectionData (sparent d) ups). repeat split; try done.
  simpl. intros Hne.
  assert (length (spoints d) ≠ 0) by (by destruct (spoints d)). lia.
Qed.

(** C4. For a segment i of a section, 1 <= i <= point_count - 1, and a half
    length H >= 0, the points that the loop body gives to the estimator, of
    which the direction added to the previous point is the principal
    direction, are the original points with the indices from
    max(0, i - H - 1) up to min(point_count, i + H + 1), an interval within
    the section; with H = 0 they are the two points of the segment. *)
Theorem window_interval σ (l : loc) pts H acc i :
  (0 ≤ H)%Z → 1 ≤ i < length pts → heap σ !! l = Some pts →
  let ws := Z.max 0 (Z.of_nat i - H - 1) in
  let we := Z.min (Z.of_nat (length pts)) (Z.of_nat i + H + 1) in
  let W := take (Z.to_nat (we - ws)) (drop (Z.to_nat ws) pts) in
  (0 ≤ ws ∧ ws < we ∧ we ≤ Z.of_nat (length pts))%Z ∧
  Z.of_nat (length W) = (we - ws)%Z ∧
  (∀ j, (Z.of_nat j < we - ws)%Z → W !! j = pts !! (Z.to_nat ws + j)) ∧
  ∃ p q,
    pts !! i = Some p ∧ pts !! (i - 1) = Some q ∧
    (H = 0%Z → W = [q; p]) ∧
    heap (unravel_point eig l (length pts) H acc i σ).2 !! fresh (dom (heap σ)) =
      Some (centred W) ∧
    (unravel_point eig l (length pts) H acc i σ).1 =
      bindE (principal_direction eig W) (λ direction,
      bindE (item acc (i - 1)) (λ prev,
      inr (acc ++ [vadd (offset (vsub p q) direction) prev]))).
Proof.
  intros HH Hi Hl ws we W. destruct (window_bounds pts H i HH Hi) as [Hs He].
  pose proof (window_length pts H i HH Hi) as Hlen.
  assert (window pts i H = W) as HW by (by apply window_take_drop).
  unfold window_start, window_end in Hs, He, Hlen. fold ws we in Hs, He, Hlen.
  rewrite HW in Hlen.
  split; [lia|]. split; [done|]. split.
  { intros j Hj. rewrite <- HW. rewrite window_lookup; [done..|]. rewrite HW. lia. }
  destruct (lookup_lt_is_Some_2 pts (i - 1) ltac:(lia)) as [q Hq].
  destruct (lookup_lt_is_Some_2 pts i ltac:(lia)) as [p Hp].
  exists p, q. split; [done|]. split; [done|]. split; [|split].
  - intros H0. rewrite <- HW. subst H. apply window_zero; [lia|done..].
  - rewrite (run_unravel_point _ _ _ _ _ _ _ Hl), HW. simpl. apply lookup_insert_eq.
  - rewrite (run_unravel_point _ _ _ _ _ _ _ Hl). simpl. unfold next_points.
    rewrite HW. unfold item at 1 2. by rewrite Hp, Hq.
Qed.

(** C10. For H >= 0 and a segment i, 1 <= i <= point_count - 1, the window
    starts at i - 1 at the latest and ends after i, so that the array the
    estimator is called on, of which it takes the mean, holds the points
    i - 1 and i of the section and has at least two rows. *)
Theorem window_holds_segment σ (l : loc) pts H acc i :
  (0 ≤ H)%Z → 1 ≤ i < length pts → heap σ !! l = Some pts →
  (window_start (Z.of_nat i) H ≤ Z.of_nat i - 1)%Z ∧
  (Z.of_nat i + 1 ≤ window_end (Z.of_nat (length pts)) (Z.of_nat i) H)%Z ∧
  (∃ j, window pts i H !! j = pts !! (i - 1) ∧ window pts i H !! S j = pts !! i) ∧
  2 ≤ length (window pts i H) ∧
  (_get_principal_direction eig
     (View l (window_start (Z.of_nat i) H)
             (window_end (Z.of_nat (length pts)) (Z.of_nat i) H)) σ).1 =
    principal_direction eig (window pts i H) ∧
  heap (unravel_point eig l (length pts) H acc i σ).2 !! fresh (dom (heap σ)) =
    Some (centred (window pts i H)) ∧
  2 ≤ length (centred (window pts i H)).
Proof.
  intros HH Hi Hl. destruct (window_bounds pts H i HH Hi) as [Hs He].
  destruct (window_segment pts H i HH Hi) as (j & Hj1 & Hj2 & Hj).
  split; [lia|]. split; [lia|]. split; [by exists j|]. split; [lia|].
  split; [by rewrite (run_get_principal_direction _ _ _ _ _ _ Hl)|].
  split.
  - rewrite (run_unravel_point _ _ _ _ _ _ _ Hl). simpl. apply lookup_insert_eq.
  - unfold centred, sub_rows. rewrite length_fmap. lia.
Qed.

Lemma get_principal_direction_grows σ (v : view) :
  heap σ ⊆ heap (_get_principal_direction eig v σ).2.
Proof.
  destruct v as [l s e]. destruct (heap σ !! l) as [a|] eqn:Hl.
  - rewrite (run_get_principal_direction _ _ _ _ _ _ Hl). simpl.
    apply insert_subseteq, not_elem_of_dom, is_fresh.
  - unfold _get_principal_direction, np_copy. rewrite !run_bind. unfold load at 1.
    simpl. by rewrite Hl.
Qed.

(** C8. unravel leaves the arrays of the sections of the tree it has read
    as they were, and so does every call of the estimator with the arrays
    that exist when it is called: it centres a copy. *)
Theorem unravel_input_untouched σ filename H ds :
  read_morphology filename = inr ds →
  (∃ morph σ1,
     Morphology read_morphology filename σ = (inr morph, σ1) ∧
     represents σ1 morph ds ∧
     heap σ1 ⊆ heap (unravel eig read_morphology filename H σ).2 ∧
     represents (unravel eig read_morphology filename H σ).2 morph ds) ∧
  (∀ σ0 (v : view), heap σ0 ⊆ heap (_get_principal_direction eig v σ0).2).
Proof.
  intros Hread. split; [|intros σ0 v; apply get_principal_direction_grows].
  destruct (run_Morphology read_morphology σ _ _ Hread) as (morph & σ1 & Hload & Hrep & _).
  exists morph, σ1. split; [done|]. split; [done|].
  destruct (run_unravel_morph eig σ1 H _ _ Hrep) as (σ' & Hrun & Hext).
  unfold unravel. rewrite run_bind, Hload, Hrun. simpl.
  split; [apply Hext|]. by eapply represents_extends.
Qed.
End Structure.

(** ** unravel returns *)

Section Returns.
Context {F : Type} {SF : Scalar F}.
Variable eig : mat3 F → option (vec3 F * mat3 F).
Variable read_morphology : string → exn + list (section_data F).
Implicit Types (σ : world F) (ds new_morph rest : list (section_data F)) (H : Z)
  (pts : ndarray F).

Lemma unravelled_returns pts H first :
  eig_returns eig H pts → ∃ ups, unravelled eig pts H first = inr ups.
Proof.
  intros Hok. apply unravelled_total. intros i Hi.
  destruct (Hok i Hi) as [[w v] Heig]. unfold principal_direction. rewrite Heig.
  by eexists.
Qed.

Lemma fold_next_morph_returns H rest k0 new_morph :
  (∀ i d, rest !! i = Some d → new_morph !! (k0 + i) = Some d) →
  (∀ j, j < k0 → ∃ s, new_morph !! j = Some s ∧ spoints s ≠ []) →
  (∀ i d, rest !! i = Some d →
     eig_returns eig H (spoints d) ∧
     match sparent d with None => spoints d ≠ [] | Some p => p < k0 + i end) →
  ∃ out, foldE (next_morph eig H) new_morph
           (zip (seq k0 (length rest)) (spoints <$> rest)) = inr out.
Proof.
  revert k0 new_morph. induction rest as [|d rest IH]; intros k0 new_morph Hnm Hdone Hok.
  { by eexists. }
  cbn [length seq fmap list_fmap zip_with foldE].
  pose proof (Hnm 0 d eq_refl) as Hk0. rewrite Nat.add_0_r in Hk0.
  destruct (Hok 0 d eq_refl) as [Heig Hpar]. rewrite Nat.add_0_r in Hpar.
  assert (∃ first, first_point new_morph d = inr first) as [first Hfirst].
  { unfold first_point, item, item_last. destruct (sparent d) as [p|].
    - destruct (Hdone p Hpar) as (s & -> & Hs). cbn [bindE].
      destruct (last (spoints s)) eqn:Hlast; [by eexists|].
      by apply last_None in Hlast.
    - destruct (spoints d); [done|]. by eexists. }
  destruct (unravelled_returns (spoints d) H first Heig) as [ups Hups].
  unfold next_morph at 1, item. rewrite Hk0. cbn [bindE]. rewrite Hfirst. cbn [bindE].
  rewrite Hups. cbn [bindE].
  apply IH.
  - intros i d' Hi. rewrite list_lookup_insert_ne by lia.
    replace (S k0 + i) with (k0 + S i) by lia. by apply Hnm.
  - intros j Hj. destruct (decide (j = k0)) as [->|Hne].
    + eexists. split; [apply list_lookup_insert_eq; by eapply lookup_lt_Some|].
      simpl. apply unravelled_inr in Hups as [Hlen _]. intros ->. simpl in Hlen. lia.
    + rewrite list_lookup_insert_ne by done. apply Hdone. lia.
  - intros i d' Hi. destruct (Hok (S i) d' Hi) as [He Hp]. split; [done|].
    destruct (sparent d'); [lia|done].
Qed.

(* unravel returns a tree when the file is read, the parents come before
   their children, the root sections have a point, and the eigen-solver
   returns on every window *)
Lemma unravel_returns σ filename H ds :
  read_morphology filename = inr ds →
  (∀ k d, ds !! k = Some d →
     eig_returns eig H (spoints d) ∧
     match sparent d with None => spoints d ≠ [] | Some p => p < k end) →
  ∃ out, (unravel eig read_morphology filename H σ).1 = inr out.
Proof.
  intros Hread Hok. rewrite unravel_fst. unfold unravelled_file. rewrite Hread.
  cbn [bindE]. apply fold_next_morph_returns; [done|lia|done].
Qed.
End Returns.

(** ** The batch *)

Section BatchRuns.
Context {F : Type} {SF : Scalar F}.
Variable eig : mat3 F → option (vec3 F * mat3 F).
Variable read_morphology : string → exn + list (section_data F).
Variable write_morphology : list (section_data F) → string → option exn.
Variable listdir : string → exn + list string.
Variable good_ext : string → bool.
Variable path_join : string → string → string.
Variable basename : string → string.
Implicit Types (σ : world F) (H : Z) (f input_dir output_dir : string).

Local Abbreviation outcome_of :=
  (outcome eig read_morphology write_morphology path_join basename).
Local Abbreviation records :=
  (records_of eig read_morphology write_morphology path_join basename).
Local Abbreviation writes :=
  (written eig read_morphology write_morphology path_join basename).
Local Abbreviation loop_body :=
  (unravel_one eig read_morphology write_morphology path_join basename).

Lemma elem_of_concat_fmap {A B} (g : A → list B) (l : list A) a b :
  a ∈ l → b ∈ g a → b ∈ concat (g <$> l).
Proof.
  induction l as [|a' l IH]; intros Ha Hb; [by apply elem_of_nil in Ha|].
  simpl. apply elem_of_app. apply elem_of_cons in Ha as [<-|Ha]; [by left|].
  right. by apply IH.
Qed.

(* one file: the loop body returns, whatever unravel and write do *)
Lemma run_unravel_one σ input_dir output_dir H f :
  ∃ σ', loop_body input_dir output_dir H f σ = (inr (), σ') ∧
        logs σ' = logs σ ++ records input_dir output_dir H f ∧
        outdir σ' = writes input_dir output_dir H (outdir σ) f.
Proof.
  unfold unravel_one, records_of, written, outcome.
  rewrite run_bind. unfold log at 1. unfold try_except.
  set (σ0 := World (heap σ) (logs σ ++ [Info f]) (outdir σ)).
  rewrite run_bind.
  destruct (run_unravel eig read_morphology σ0 (path_join input_dir f) H)
    as (σ1 & -> & _ & Hlogs & Hout).
  destruct (unravelled_file _ _ _ _) as [e|m]; simpl.
  - rewrite run_bind. unfold log. simpl. eexists. split; [done|]. simpl.
    rewrite Hlogs, Hout. simpl. by rewrite <- !app_assoc.
  - unfold write. destruct (write_morphology m _) as [e|]; simpl.
    + rewrite run_bind. unfold log. simpl. eexists. split; [done|]. simpl.
      rewrite Hlogs, Hout. simpl. by rewrite <- !app_assoc.
    + eexists. split; [done|]. simpl. by rewrite Hlogs, Hout.
Qed.

Lemma run_files σ input_dir output_dir H (files : list string) :
  ∃ σ', forM files (loop_body input_dir output_dir H) σ = (inr (), σ') ∧
        logs σ' = logs σ ++ concat (records input_dir output_dir H <$> files) ∧
        outdir σ' = foldl (writes input_dir output_dir H) (outdir σ) files.
Proof.
  unfold forM. revert σ. induction files as [|f files IH]; intros σ.
  - exists σ. simpl. by rewrite app_nil_r.
  - cbn [foldM]. rewrite run_bind.
    destruct (run_unravel_one σ input_dir output_dir H f) as (σ1 & -> & Hl1 & Ho1).
    destruct (IH σ1) as (σ' & -> & Hl & Ho). exists σ'. split; [done|].
    simpl. rewrite Hl, Hl1, Ho, Ho1. by rewrite <- app_assoc.
Qed.

Lemma written_lookup input_dir output_dir H (files : list string)
    (out : gmap string (list (section_data F))) path m :
  foldl (writes input_dir output_dir H) out files !! path = Some m →
  out !! path = Some m ∨
  ∃ f, f ∈ files ∧ path = path_join output_dir (basename f) ∧
       outcome_of input_dir output_dir H f = inr m.
Proof.
  revert out. induction files as [|f files IH]; intros out Hm; [by left|].
  simpl in Hm. apply IH in Hm as [Hm|(f' & Hin & Hp & Ho)].
  - unfold written in Hm.
    destruct (outcome_of input_dir output_dir H f) as [e|m'] eqn:Ho; [by left|].
    destruct (decide (path_join output_dir (basename f) = path)) as [<-|Hne].
    + rewrite lookup_insert_eq in Hm. injection Hm as ->. right. exists f.
      split; [left|done].
    + rewrite lookup_insert_ne in Hm by done. by left.
  - right. exists f'. split; [by right|done].
Qed.

Lemma written_is_Some input_dir output_dir H (files : list string)
    (out : gmap string (list (section_data F))) path :
  is_Some (out !! path) →
  is_Some (foldl (writes input_dir output_dir H) out files !! path).
Proof.
  revert out. induction files as [|f files IH]; intros out Hs; [done|].
  simpl. apply IH. unfold written.
  destruct (outcome_of input_dir output_dir H f); [done|].
  destruct (decide (path_join output_dir (basename f) = path)) as [<-|Hne].
  - rewrite lookup_insert_eq. eauto.
  - by rewrite lookup_insert_ne.
Qed.

Lemma written_success input_dir output_dir H (files : list string)
    (out : gmap string (list (section_data F))) f m :
  f ∈ files → outcome_of input_dir output_dir H f = inr m →
  is_Some (foldl (writes input_dir output_dir H) out files
             !! path_join output_dir (basename f)).
Proof.
  revert out. induction files as [|f' files IH]; intros out Hin Ho.
  - by apply elem_of_nil in Hin.
  - apply elem_of_cons in Hin as [<-|Hin]; [|by apply IH].
    simpl. apply written_is_Some. unfold written at 1. rewrite Ho.
    rewrite lookup_insert_eq. eauto.
Qed.

(** C9. When the directory can be listed, unravel_all returns normally
    whatever happens with each file: every file with a good extension is
    announced in the log, in order; a file whose unravelling or writing
    raises leaves the two warnings and the loop goes on; and the files
    written are those of the files that succeeded, and only those. *)
Theorem unravel_all_goes_on σ input_dir output_dir H names :
  listdir input_dir = inr names →
  let files := List.filter good_ext names in
  ∃ σ',
    unravel_all eig read_morphology write_morphology listdir good_ext path_join
      basename input_dir output_dir H σ = (inr (), σ') ∧
    logs σ' = logs σ ++ concat (records input_dir output_dir H <$> files) ∧
    outdir σ' = foldl (writes input_dir output_dir H) (outdir σ) files ∧
    (∀ f, f ∈ files → Info f ∈ logs σ') ∧
    (∀ f e, f ∈ files → outcome_of input_dir output_dir H f = inl e →
       Warning ("Unravelling " +:+ f +:+ " failed") ∈ logs σ' ∧
       WarningExc e ∈ logs σ') ∧
    (∀ f m, f ∈ files → outcome_of input_dir output_dir H f = inr m →
       is_Some (outdir σ' !! path_join output_dir (basename f))) ∧
    (∀ path m, outdir σ' !! path = Some m →
       outdir σ !! path = Some m ∨
       ∃ f, f ∈ files ∧ path = path_join output_dir (basename f) ∧
            outcome_of input_dir output_dir H f = inr m).
Proof.
  intros Hls files. unfold unravel_all. rewrite Hls. fold files.
  destruct (run_files σ input_dir output_dir H files) as (σ' & Hrun & Hl & Ho).
  exists σ'. split; [done|]. split; [done|]. split; [done|].
  assert (∀ f r, f ∈ files → r ∈ records input_dir output_dir H f → r ∈ logs σ')
    as Hrec.
  { intros f r Hf Hr. rewrite Hl. apply elem_of_app. right.
    by eapply elem_of_concat_fmap. }
  split; [|split; [|split]].
  - intros f Hf. apply (Hrec f _ Hf). unfold records_of. left.
  - intros f e Hf He. split; apply (Hrec f _ Hf); unfold records_of;
      rewrite He; [right; left|right; right; left].
  - intros f m Hf Hm. rewrite Ho. by eapply written_success.
  - intros path m Hm. rewrite Ho in Hm. by apply written_lookup in Hm.
Qed.
End BatchRuns.

(** ** Real vectors: the rescaling and the sign *)

Section RealAlgebra.
Local Open Scope R_scope.
Implicit Types (s d p q u : vec3 R) (c t : R).

Lemma Rsign_pos x : 0 < x → Rsign x = 1.
Proof. intros Hx. unfold Rsign. destruct (Rlt_dec 0 x); [done|lra]. Qed.

Lemma Rsign_neg x : x < 0 → Rsign x = -1.
Proof.
  intros Hx. unfold Rsign. destruct (Rlt_dec 0 x); [lra|].
  destruct (Rlt_dec x 0); [done|lra].
Qed.

Lemma Rsign_zero : Rsign 0 = 0.
Proof.
  unfold Rsign. destruct (Rlt_dec 0 0); [lra|]. destruct (Rlt_dec 0 0); [lra|done].
Qed.

Lemma Rsign_mult_abs x : x * Rsign x = Rabs x.
Proof.
  destruct (Rtotal_order x 0) as [Hx|[->|Hx]].
  - rewrite Rsign_neg, Rabs_left by done. ring.
  - rewrite Rsign_zero, Rabs_R0. ring.
  - rewrite Rsign_pos, Rabs_right by lra. ring.
Qed.

Lemma argmax_ge (w : vec3 R) j : coord w j <= coord w (argmax w).
Proof.
  unfold argmax. cbn [fge R_scalar]. unfold Rgeb.
  destruct w as [a b c]. cbn [vx vy vz].
  destruct (Rle_dec b a), (Rle_dec c a), (Rle_dec c b); destruct j; cbn; lra.
Qed.

Lemma vec3_eq (a b : vec3 R) :
  vx a = vx b → vy a = vy b → vz a = vz b → a = b.
Proof. destruct a, b. simpl. by intros -> -> ->. Qed.

Lemma vzero_dec p : p = vzero ∨ p ≠ vzero.
Proof.
  destruct (Req_dec (vx p) 0) as [Hx|Hx]; [|right; by intros ->].
  destruct (Req_dec (vy p) 0) as [Hy|Hy]; [|right; by intros ->].
  destruct (Req_dec (vz p) 0) as [Hz|Hz]; [|right; by intros ->].
  left. by apply vec3_eq.
Qed.

Lemma dot_R p q : dot p q = vx p * vx q + vy p * vy q + vz p * vz q.
Proof. unfold dot, fsum. cbn. ring. Qed.

Lemma dot_self_nonneg p : 0 <= dot p p.
Proof. rewrite dot_R. nra. Qed.

Lemma dot_self_pos p : p ≠ vzero → 0 < dot p p.
Proof.
  intros Hp. rewrite dot_R.
  destruct (Req_dec (vx p * vx p + vy p * vy p + vz p * vz p) 0) as [H0|]; [|nra].
  exfalso. apply Hp, vec3_eq; cbn; nra.
Qed.

Lemma dot_vscale_r s d c : dot s (vscale d c) = c * dot s d.
Proof. rewrite !dot_R. cbn. ring. Qed.

Lemma norm_nonneg p : 0 <= norm p.
Proof. apply sqrt_pos. Qed.

Lemma norm_pos p : p ≠ vzero → 0 < norm p.
Proof. intros Hp. apply sqrt_lt_R0. by apply dot_self_pos. Qed.

Lemma norm_sqr p : norm p * norm p = dot p p.
Proof. apply sqrt_sqrt, dot_self_nonneg. Qed.

Lemma norm_vscale d c : norm (vscale d c) = Rabs c * norm d.
Proof.
  unfold norm. replace (dot (vscale d c) (vscale d c)) with (c² * dot d d).
  - rewrite sqrt_mult; [|apply Rle_0_sqr|apply dot_self_nonneg].
    by rewrite sqrt_Rsqr_abs.
  - rewrite !dot_R. cbn. unfold Rsqr. ring.
Qed.

Lemma vscale_vscale d c1 c2 : vscale (vscale d c1) c2 = vscale d (c1 * c2).
Proof. apply vec3_eq; cbn; ring. Qed.

Lemma vscale_0 d : vscale d 0 = vzero.
Proof. apply vec3_eq; cbn; ring. Qed.

Lemma vscale_1 d : vscale d 1 = d.
Proof. apply vec3_eq; cbn; ring. Qed.

Lemma vadd_vsub p q : vadd (vsub p q) q = p.
Proof. apply vec3_eq; cbn; ring. Qed.

Lemma vsub_vadd p q : vsub (vadd p q) q = p.
Proof. apply vec3_eq; cbn; ring. Qed.

Lemma vadd_vzero p : vadd vzero p = p.
Proof. apply vec3_eq; cbn; ring. Qed.

Lemma vsub_self p : vsub p p = vzero.
Proof. apply vec3_eq; cbn; ring. Qed.

Lemma norm_vzero : norm (@vzero R _) = 0.
Proof.
  unfold norm. replace (dot (@vzero R _) vzero) with 0; [apply sqrt_0|].
  rewrite dot_R. cbn. ring.
Qed.

Lemma offset_eq s d :
  offset s d = vscale d (norm s / norm d * Rsign (norm s / norm d * dot s d)).
Proof.
  unfold offset, resolve_sign, rescale. rewrite dot_vscale_r. apply vscale_vscale.
Qed.

(* the sign resolution annihilates a direction orthogonal to the segment *)
Lemma resolve_sign_orthogonal s d : dot s d = 0 → resolve_sign s d = vzero.
Proof.
  intros H0. unfold resolve_sign. cbn [fsign R_scalar]. rewrite H0, Rsign_zero.
  apply vscale_0.
Qed.

Lemma resolve_sign_nonneg s d : 0 <= dot s (resolve_sign s d).
Proof.
  unfold resolve_sign. rewrite dot_vscale_r. cbn [fsign R_scalar].
  rewrite Rmult_comm, Rsign_mult_abs. apply Rabs_pos.
Qed.

Lemma offset_orthogonal s d : dot s d = 0 → offset s d = vzero.
Proof.
  intros H0. unfold offset. apply resolve_sign_orthogonal.
  unfold rescale. rewrite dot_vscale_r, H0. ring.
Qed.

(* the length of the segment is kept when the direction is neither null nor
   orthogonal to the segment *)
Lemma offset_norm s d : d ≠ vzero → dot s d ≠ 0 → norm (offset s d) = norm s.
Proof.
  intros Hd Hsd. pose proof (norm_pos d Hd) as Hnd.
  assert (s ≠ vzero) as Hs.
  { intros ->. apply Hsd. rewrite dot_R. cbn. ring. }
  pose proof (norm_pos s Hs) as Hns.
  assert (0 < norm s / norm d) as Hc by (by apply Rdiv_lt_0_compat).
  rewrite offset_eq, norm_vscale, Rabs_mult, (Rabs_right (norm s / norm d)) by lra.
  assert (Rabs (Rsign (norm s / norm d * dot s d)) = 1) as ->.
  { destruct (Rtotal_order (dot s d) 0) as [Hneg|[H0|Hpos]]; [|done|].
    - rewrite Rsign_neg by nra. rewrite Rabs_left; lra.
    - rewrite Rsign_pos by nra. apply Rabs_R1. }
  field. lra.
Qed.

(* a direction along the segment, either way, gives the segment back *)
Lemma offset_parallel s t : t ≠ 0 → offset s (vscale s t) = s.
Proof.
  intros Ht. destruct (vzero_dec s) as [->|Hs].
  { rewrite offset_eq. apply vec3_eq; cbn; ring. }
  pose proof (norm_pos s Hs) as Hns. pose proof (dot_self_pos s Hs) as Hss.
  rewrite offset_eq, norm_vscale, dot_vscale_r, vscale_vscale.
  transitivity (vscale s 1); [f_equal|apply vscale_1].
  destruct (Rtotal_order t 0) as [Hneg|[H0|Hpos]]; [|by destruct Ht|].
  - rewrite Rabs_left by done.
    assert (norm s / (- t * norm s) = / - t) as -> by (field; lra).
    replace (/ - t * (t * dot s s)) with (- dot s s) by (field; lra).
    rewrite Rsign_neg by lra. field. lra.
  - rewrite Rabs_right by lra.
    assert (norm s / (t * norm s) = / t) as -> by (field; lra).
    replace (/ t * (t * dot s s)) with (dot s s) by (field; lra).
    rewrite Rsign_pos by lra. field. lra.
Qed.
End RealAlgebra.

(** ** The principal direction, from the contract of the eigen-solver *)

Section Eigen.
Local Open Scope R_scope.
Variable eig : mat3 R → option (vec3 R * mat3 R).
Implicit Types (u x : vec3 R) (w : vec3 R) (v C : mat3 R).

Lemma eig_diag_correct a b c : eig_correct_at eig_diag (diag a b c).
Proof.
  exists (V3 a b c), (diag 1 1 1). split; [done|]. split.
  - intros j. split.
    + unfold eigenpair. destruct j; apply vec3_eq; rewrite ?dot_R; cbn; ring.
    + rewrite dot_R. destruct j; cbn; ring.
  - intros ev [x y z] Hx Hev. unfold eigenpair in Hev.
    apply (f_equal (λ r, (vx r, vy r, vz r))) in Hev. cbn in Hev.
    injection Hev as H1 H2 H3.
    destruct (Req_dec x 0) as [->|Hx0].
    + destruct (Req_dec y 0) as [->|Hy0].
      * destruct (Req_dec z 0) as [->|Hz0]; [done|]. exists ax2. cbn. nra.
      * exists ax1. cbn. nra.
    + exists ax0. cbn. nra.
Qed.

(* the largest eigenvalue of diag a b c is a when a > b and a > c, and its
   eigenvectors are along the first axis *)
Lemma principal_diag a b c w v :
  b < a → c < a → eig_correct (diag a b c) w v →
  ∃ t, t * t = 1 ∧ column v (argmax w) = V3 t 0 0.
Proof.
  intros Hb Hc [Hpairs Hall].
  destruct (Hall a (V3 1 0 0)) as [j Hj].
  { intros [= H1]. lra. }
  { unfold eigenpair. apply vec3_eq; cbn; ring. }
  pose proof (argmax_ge w j) as Hmax. rewrite Hj in Hmax.
  destruct (Hpairs (argmax w)) as [Hev Hunit].
  destruct (column v (argmax w)) as [x y z]. unfold eigenpair in Hev.
  apply (f_equal (λ r, (vx r, vy r, vz r))) in Hev. cbn in Hev.
  injection Hev as H1 H2 H3.
  rewrite dot_R in Hunit. cbn in Hunit.
  assert (y = 0) as -> by nra. assert (z = 0) as -> by nra.
  exists x. split; [nra|done].
Qed.

Lemma principal_direction_diag pts a b c :
  gram (centred pts) = diag a b c → b < a → c < a →
  eig_correct_at eig (diag a b c) →
  ∃ t, t * t = 1 ∧ principal_direction eig pts = inr (V3 t 0 0).
Proof.
  intros Hg Hb Hc (w & v & Heig & Hok). unfold principal_direction.
  rewrite Hg, Heig. destruct (principal_diag a b c w v Hb Hc Hok) as (t & Ht & ->).
  by exists t.
Qed.

(* the matrix g u uT, g > 0, has its principal direction along u *)
Lemma principal_rank_one g u w v :
  0 < g → u ≠ vzero → eig_correct (rank_one g u) w v →
  ∃ t, t ≠ 0 ∧ column v (argmax w) = vscale u t.
Proof.
  intros Hg Hu [Hpairs Hall]. pose proof (dot_self_pos u Hu) as Huu.
  destruct (Hall (g * dot u u) u Hu) as [j Hj].
  { unfold eigenpair. apply vec3_eq; cbn; rewrite ?dot_R; cbn; ring. }
  pose proof (argmax_ge w j) as Hmax. rewrite Hj in Hmax.
  destruct (Hpairs (argmax w)) as [Hev Hunit].
  destruct (column v (argmax w)) as [x1 x2 x3]. set (ev := coord w (argmax w)) in *.
  assert (0 < ev) as Hpos by nra.
  unfold eigenpair in Hev.
  apply (f_equal (λ r, (vx r, vy r, vz r))) in Hev. cbn in Hev.
  injection Hev as H1 H2 H3. rewrite dot_R in Hunit. cbn in Hunit.
  set (ux := vx u * x1 + vy u * x2 + vz u * x3).
  assert (g * vx u * ux = x1 * ev) as E1 by (unfold ux; lra).
  assert (g * vy u * ux = x2 * ev) as E2 by (unfold ux; lra).
  assert (g * vz u * ux = x3 * ev) as E3 by (unfold ux; lra).
  exists (g * ux / ev). split.
  - intros H0.
    assert (g * ux = 0) as Hz.
    { apply (Rmult_eq_reg_r (/ ev)); [|apply Rinv_neq_0_compat; lra].
      rewrite Rmult_0_l. exact H0. }
    assert (x1 * ev = 0) as Z1.
    { rewrite <- E1. replace (g * vx u * ux) with (vx u * (g * ux)) by ring.
      rewrite Hz. ring. }
    assert (x2 * ev = 0) as Z2.
    { rewrite <- E2. replace (g * vy u * ux) with (vy u * (g * ux)) by ring.
      rewrite Hz. ring. }
    assert (x3 * ev = 0) as Z3.
    { rewrite <- E3. replace (g * vz u * ux) with (vz u * (g * ux)) by ring.
      rewrite Hz. ring. }
    assert (x1 = 0) by nra. assert (x2 = 0) by nra. assert (x3 = 0) by nra. nra.
  - apply vec3_eq; cbn; field_simplify_eq; lra.
Qed.

Lemma principal_direction_rank_one pts g u :
  gram (centred pts) = rank_one g u → 0 < g → u ≠ vzero →
  eig_correct_at eig (rank_one g u) →
  ∃ t, t ≠ 0 ∧ principal_direction eig pts = inr (vscale u t).
Proof.
  intros Hgram Hg Hu (w & v & Heig & Hok). unfold principal_direction.
  rewrite Hgram, Heig. destruct (principal_rank_one g u w v Hg Hu Hok) as (t & Ht & ->).
  by exists t.
Qed.
End Eigen.

(** ** Sections on a straight line *)

Section Straight.
Local Open Scope R_scope.
Variable eig : mat3 R → option (vec3 R * mat3 R).
Implicit Types (p q : vec3 R) (pts acc : ndarray R) (H : Z).

Lemma mat3_eq (A B : mat3 R) :
  row0 A = row0 B → row1 A = row1 B → row2 A = row2 B → A = B.
Proof. destruct A, B. simpl. by intros -> -> ->. Qed.

(* a step whose principal direction is along the segment copies the point *)
Lemma next_points_parallel pts H acc (i : nat) p q t :
  pts !! i = Some p → pts !! (i - 1)%nat = Some q → acc !! (i - 1)%nat = Some q →
  t ≠ 0 → principal_direction eig (window pts i H) = inr (vscale (vsub p q) t) →
  next_points eig pts H acc i = inr (acc ++ [p]).
Proof.
  intros Hp Hq Hacc Ht Hd. unfold next_points, item.
  rewrite Hd, Hp, Hq, Hacc. cbn [bindE].
  by rewrite offset_parallel, vadd_vsub.
Qed.

Lemma gram_two_points p q : gram (centred [p; q]) = rank_one (1 / 2) (vsub q p).
Proof.
  destruct p as [px py pz], q as [qx qy qz].
  apply mat3_eq; apply vec3_eq; cbn; field.
Qed.

Lemma window_two_points p q H : (0 ≤ H)%Z → window [p; q] 1 H = [p; q].
Proof.
  intros HH. rewrite window_take_drop by (done || simpl; lia).
  unfold window_start, window_end. cbn [length].
  replace (Z.max 0 (Z.of_nat 1 - H - 1)) with 0%Z by lia.
  replace (Z.min (Z.of_nat 2) (Z.of_nat 1 + H + 1)) with 2%Z by lia.
  done.
Qed.

Lemma vsub_ne p q : p ≠ q → vsub q p ≠ vzero.
Proof.
  intros Hne H0. apply Hne.
  apply (f_equal (λ r, (vx r, vy r, vz r))) in H0. cbn in H0.
  injection H0 as H1 H2 H3. apply vec3_eq; lra.
Qed.

(* a section of two distinct points unravels to itself *)
Lemma unravelled_two_points p q H :
  p ≠ q → (0 ≤ H)%Z → eig_correct_at eig (gram (centred [p; q])) →
  unravelled eig [p; q] H p = inr [p; q].
Proof.
  intros Hne HH Hok. rewrite gram_two_points in Hok.
  destruct (principal_direction_rank_one eig [p; q] _ _ (gram_two_points p q)
              ltac:(lra) (vsub_ne p q Hne) Hok) as (t & Ht & Hd).
  unfold unravelled. cbn [length seq Nat.sub foldE].
  rewrite (next_points_parallel [p; q] H [p] 1 q p t); try done.
  by rewrite window_two_points.
Qed.
End Straight.

(** ** The two scenarios on one section, and the orthogonal segment *)

Section Scenarios.
Local Open Scope R_scope.
Variable eig : mat3 R → option (vec3 R * mat3 R).
Variable read_morphology : string → exn + list (section_data R).
Implicit Types (p q : vec3 R) (pts ups : ndarray R) (H : Z) (σ : world R).

(* a morphology of one root section *)
Lemma unravelled_morph_single pts H first ups :
  pts !! 0%nat = Some first → unravelled eig pts H first = inr ups →
  unravelled_morph eig [SectionData None pts] H = inr [SectionData None ups].
Proof.
  intros H0 Hu. unfold unravelled_morph.
  cbn [length seq fmap list_fmap zip_with foldE spoints next_morph item lookup
       list_lookup bindE].
  unfold first_point, item. cbn [sparent spoints]. rewrite H0. cbn [bindE].
  by rewrite Hu.
Qed.

Lemma unravel_single σ filename pts H first ups :
  read_morphology filename = inr [SectionData None pts] →
  pts !! 0%nat = Some first → unravelled eig pts H first = inr ups →
  (unravel eig read_morphology filename H σ).1 = inr [SectionData None ups].
Proof.
  intros Hread H0 Hu. rewrite unravel_fst. unfold unravelled_file. rewrite Hread.
  cbn [bindE]. by eapply unravelled_morph_single.
Qed.

Lemma gram_line_start : gram (centred [V3 0 0 0; V3 1 0 0; V3 2 0 0]) = diag 2 0 0.
Proof. apply mat3_eq; apply vec3_eq; cbn; field. Qed.

Lemma gram_line_end : gram (centred [V3 1 0 0; V3 2 0 0; V3 3 0 0]) = diag 2 0 0.
Proof. apply mat3_eq; apply vec3_eq; cbn; field. Qed.

Lemma gram_line : gram (centred line) = diag 5 0 0.
Proof. apply mat3_eq; apply vec3_eq; cbn; field. Qed.

Lemma gram_bent : gram (centred bent) = diag 6 2 0.
Proof. apply mat3_eq; apply vec3_eq; cbn; field. Qed.

Lemma along_first_axis t a b : a - b = 1 → V3 t 0 0 = vscale (vsub (V3 a 0 0) (V3 b 0 0)) t.
Proof. intros Hab. apply vec3_eq; cbn; nra. Qed.

Lemma unravelled_line :
  (∀ c, 0 < c → eig_correct_at eig (diag c 0 0)) →
  unravelled eig line 1 (V3 0 0 0) = inr line.
Proof.
  intros Hok.
  destruct (principal_direction_diag eig _ 2 0 0 gram_line_start ltac:(lra) ltac:(lra)
              (Hok 2 ltac:(lra))) as (t1 & Ht1 & Hd1).
  destruct (principal_direction_diag eig _ 5 0 0 gram_line ltac:(lra) ltac:(lra)
              (Hok 5 ltac:(lra))) as (t2 & Ht2 & Hd2).
  destruct (principal_direction_diag eig _ 2 0 0 gram_line_end ltac:(lra) ltac:(lra)
              (Hok 2 ltac:(lra))) as (t3 & Ht3 & Hd3).
  unfold unravelled, line. cbn [length seq Nat.sub foldE].
  rewrite (next_points_parallel eig _ 1 [V3 0 0 0] 1 (V3 1 0 0) (V3 0 0 0) t1);
    [|done|done|done|nra|]; cycle 1.
  { etrans; [exact Hd1|]. f_equal. apply along_first_axis. lra. }
  cbn [bindE app].
  rewrite (next_points_parallel eig _ 1 _ 2 (V3 2 0 0) (V3 1 0 0) t2);
    [|done|done|done|nra|]; cycle 1.
  { etrans; [exact Hd2|]. f_equal. apply along_first_axis. lra. }
  cbn [bindE app].
  rewrite (next_points_parallel eig _ 1 _ 3 (V3 3 0 0) (V3 2 0 0) t3);
    [|done|done|done|nra|]; cycle 1.
  { etrans; [exact Hd3|]. f_equal. apply along_first_axis. lra. }
  done.
Qed.

(** C6. A root section with the points (0,0,0), (1,0,0), (2,0,0), (3,0,0),
    alone in its file, is returned unchanged by unravel with a half length
    of 1, whenever the eigen-solver is right on the diagonal matrices of its
    three windows. *)
Theorem straight_line_unchanged σ filename :
  (∀ c, 0 < c → eig_correct_at eig (diag c 0 0)) →
  read_morphology filename = inr [SectionData None line] →
  (unravel eig read_morphology filename 1 σ).1 = inr [SectionData None line].
Proof.
  intros Hok Hread.
  apply (unravel_single σ filename line 1 (V3 0 0 0) line Hread); [done|].
  by apply unravelled_line.
Qed.

(** C7, as amended. Over the exact reals, a root section of two distinct
    points is returned unchanged, for every half length H >= 0, whenever the
    eigen-solver is right on the matrix of the two points: alone in its
    file, and as a section of any tree that unravel returns. *)
Theorem two_points_unchanged p q H :
  (0 ≤ H)%Z → p ≠ q → eig_correct_at eig (gram (centred [p; q])) →
  (∀ σ filename,
     read_morphology filename = inr [SectionData None [p; q]] →
     (unravel eig read_morphology filename H σ).1 = inr [SectionData None [p; q]]) ∧
  (∀ σ filename ds out (k : nat),
     read_morphology filename = inr ds →
     (unravel eig read_morphology filename H σ).1 = inr out →
     ds !! k = Some (SectionData None [p; q]) →
     out !! k = Some (SectionData None [p; q])).
Proof.
  intros HH Hne Hok.
  pose proof (unravelled_two_points eig p q H Hne HH Hok) as Hu. split.
  - intros σ filename Hread. by apply (unravel_single σ filename [p; q] H p).
  - intros σ filename ds out k Hread Hrun Hk.
    apply (unravel_inr _ _ _ _ _ _ _ Hread) in Hrun.
    apply unravelled_morph_inr in Hrun as [_ Hsec].
    destruct (Hsec k _ Hk) as (first & ups & before & Hout & Hups & Hfirst & _).
    apply first_point_root in Hfirst; [|done]. cbn [spoints sparent] in Hfirst, Hups, Hout.
    cbn in Hfirst.
    injection Hfirst as <-. rewrite Hu in Hups. by injection Hups as <-.
Qed.

(* what does hold of the lengths: a segment keeps its length unless the
   principal direction of its window is orthogonal to it *)
Lemma segment_length_kept pts H ups (i : nat) direction p q new prev :
  segment_step eig pts H ups i →
  principal_direction eig (window pts i H) = inr direction →
  pts !! i = Some p → pts !! (i - 1)%nat = Some q →
  ups !! i = Some new → ups !! (i - 1)%nat = Some prev →
  direction ≠ vzero → dot (vsub p q) direction ≠ 0 →
  norm (vsub new prev) = norm (vsub p q).
Proof.
  intros (d' & p' & q' & prev' & Hd' & Hp' & Hq' & Hprev' & Hnew') Hd Hp Hq Hnew Hprev
    Hne Hdot.
  rewrite Hd in Hd'. simplify_eq. rewrite vsub_vadd. by apply offset_norm.
Qed.

Lemma principal_direction_bent :
  eig_correct_at eig (diag 6 2 0) →
  ∃ t, t * t = 1 ∧ principal_direction eig bent = inr (V3 t 0 0).
Proof.
  intros Hok. by apply (principal_direction_diag eig bent 6 2 0 gram_bent); [lra..|].
Qed.

Lemma norm_first_segment_bent : norm (vsub (V3 0 1 0) (V3 0 (-1) 0)) = 2.
Proof.
  unfold norm. replace (dot _ _) with (2 * 2) by (rewrite dot_R; cbn; ring).
  apply sqrt_square. lra.
Qed.

Lemma norm_unit_first_axis t : t * t = 1 → norm (V3 t 0 0) = 1.
Proof.
  intros Ht. unfold norm. replace (dot _ _) with 1 by (rewrite dot_R; cbn; lra).
  apply sqrt_1.
Qed.

(** C1, at the input on which the code fails. For the root section
    (0,-1,0), (0,1,0), (3,0,0) and the default half length 5, the principal
    direction of the window is orthogonal to the first segment, np.sign gives
    0, and the first segment of the output has length 0, where the segment of
    the input has length 2. *)
Theorem first_segment_collapses σ filename :
  eig_correct_at eig (diag 6 2 0) →
  read_morphology filename = inr [SectionData None bent] →
  ∃ new0 new1 new2,
    (unravel eig read_morphology filename 5 σ).1 =
      inr [SectionData None [new0; new1; new2]] ∧
    norm (vsub new1 new0) = 0 ∧
    norm (vsub (V3 0 1 0) (V3 0 (-1) 0)) = 2.
Proof.
  intros Hok Hread. destruct (principal_direction_bent Hok) as (t & Ht & Hd).
  eexists (V3 0 (-1) 0), (V3 0 (-1) 0), _. split; [|split].
  - apply (unravel_single σ filename bent 5 (V3 0 (-1) 0) _ Hread); [done|].
    unfold unravelled, bent. cbn [length seq Nat.sub foldE].
    unfold next_points at 1, item.
    change (window _ 1 5) with bent. rewrite Hd. cbn [lookup list_lookup bindE Nat.sub].
    rewrite offset_orthogonal by (rewrite dot_R; cbn; ring).
    rewrite vadd_vzero. cbn [app].
    unfold next_points at 1, item.
    change (window _ 2 5) with bent. rewrite Hd. cbn [lookup list_lookup bindE Nat.sub].
    reflexivity.
  - rewrite vsub_self. apply norm_vzero.
  - apply norm_first_segment_bent.
Qed.

(** C3, at the input on which the code fails. For the first segment s of
    that section, the rescaled direction d is not null and s . d = 0; what
    the sign resolution leaves is the null vector, not d. *)
Theorem sign_resolution_zeroes :
  eig_correct_at eig (diag 6 2 0) →
  ∃ direction,
    principal_direction eig (window bent 1 5) = inr direction ∧
    let s := vsub (V3 0 1 0) (V3 0 (-1) 0) in
    let d := rescale s direction in
    dot s d = 0 ∧ d ≠ vzero ∧ resolve_sign s d = vzero ∧ resolve_sign s d ≠ d.
Proof.
  intros Hok. destruct (principal_direction_bent Hok) as (t & Ht & Hd).
  exists (V3 t 0 0). split; [exact Hd|]. intros s d.
  assert (dot s d = 0) as H0.
  { unfold d, rescale. rewrite dot_vscale_r, dot_R. cbn. ring. }
  assert (d ≠ vzero) as Hne.
  { unfold d, rescale, s. rewrite norm_first_segment_bent, norm_unit_first_axis by done.
    intros [= H1]. nra. }
  pose proof (resolve_sign_orthogonal s d H0) as Hz.
  split; [done|]. split; [done|]. split; [done|]. by rewrite Hz.
Qed.
End Scenarios.

(** ** Runs on concrete inputs *)

Section Runs.
Local Open Scope R_scope.
Implicit Types (H : Z) (σ : world R).

Lemma eig_diag_two_points a b :
  eig_correct_at eig_diag (gram (centred [V3 a 0 0; V3 b 0 0])).
Proof.
  replace (gram _) with (diag ((b - a) * (b - a) / 2) 0 0).
  - apply eig_diag_correct.
  - symmetry. apply mat3_eq; apply vec3_eq; cbn; field.
Qed.

Lemma unravelled_on_axis a b H :
  a ≠ b → (0 ≤ H)%Z →
  unravelled eig_diag [V3 a 0 0; V3 b 0 0] H (V3 a 0 0) = inr [V3 a 0 0; V3 b 0 0].
Proof.
  intros Hab HH. apply unravelled_two_points; [|done|apply eig_diag_two_points].
  by intros [= ?].
Qed.

Lemma unravelled_morph_twig H :
  (0 ≤ H)%Z → unravelled_morph eig_diag twig H = inr twig.
Proof.
  intros HH. unfold unravelled_morph, twig.
  cbn [length seq fmap list_fmap zip_with foldE spoints].
  unfold next_morph at 1, item. cbn [lookup list_lookup bindE].
  unfold first_point at 1, item. cbn [sparent spoints lookup list_lookup bindE].
  rewrite unravelled_on_axis by (done || lra). cbn [bindE sparent insert list_insert].
  unfold next_morph at 1, item. cbn [lookup list_lookup bindE].
  unfold first_point at 1, item, item_last.
  cbn [sparent spoints lookup list_lookup bindE last].
  rewrite unravelled_on_axis by (done || lra). done.
Qed.

Lemma unravel_twig σ filename H read_morphology :
  read_morphology filename = inr twig → (0 ≤ H)%Z →
  (unravel eig_diag read_morphology filename H σ).1 = inr twig.
Proof.
  intros Hread HH. rewrite unravel_fst. unfold unravelled_file. rewrite Hread.
  by apply unravelled_morph_twig.
Qed.

Lemma unravel_gap σ filename H read_morphology :
  read_morphology filename = inr gap → (0 ≤ H)%Z →
  (unravel eig_diag read_morphology filename H σ).1 =
    inr [SectionData None [V3 0 0 0];
         SectionData (Some 0%nat) [V3 0 0 0];
         SectionData (Some 0%nat) [V3 0 0 0; V3 1 0 0]].
Proof.
  intros Hread HH. rewrite unravel_fst. unfold unravelled_file. rewrite Hread.
  cbn [bindE]. unfold unravelled_morph, gap.
  cbn [length seq fmap list_fmap zip_with foldE spoints].
  change (next_morph eig_diag H _ (0%nat, [V3 0 0 0]))
    with (inr gap : exn + list (section_data R)).
  cbn [bindE]. unfold gap.
  change (next_morph eig_diag H _ (1%nat, []))
    with (inr [SectionData None [V3 0 0 0];
               SectionData (Some 0%nat) [V3 0 0 0];
               SectionData (Some 0%nat) [V3 0 0 0; V3 1 0 0]]
          : exn + list (section_data R)).
  cbn [bindE].
  unfold next_morph at 1, item. cbn [lookup list_lookup bindE].
  unfold first_point at 1, item, item_last.
  cbn [sparent spoints lookup list_lookup bindE last].
  rewrite unravelled_on_axis by (done || lra). done.
Qed.
End Runs.

(** ** The properties at concrete inputs

    The eigen-solver is [eig_diag], which meets the contract on the diagonal
    matrices that occur here. *)

Section Witnesses.
Local Open Scope R_scope.

Lemma twig_parents_first (k : nat) (d : section_data R) (p : nat) :
  twig !! k = Some d → sparent d = Some p → (p < k)%nat.
Proof.
  destruct k as [|[|k]]; intros Hk Hp; cbn in Hk.
  - injection Hk as <-. done.
  - injection Hk as <-. injection Hp as <-. lia.
  - done.
Qed.

Lemma unravel_connected_witness :
  ∃ new_section first,
    twig !! 1%nat = Some new_section ∧ sparent new_section = Some 0%nat ∧
    spoints new_section !! 0%nat = Some first ∧
    ∃ new_parent, twig !! 0%nat = Some new_parent ∧
                  last (spoints new_parent) = Some first.
Proof.
  apply (unravel_connected eig_diag (λ _, inr twig) empty_world "twig.swc" 5 twig twig
           eq_refl twig_parents_first
           (unravel_twig empty_world "twig.swc" 5 _ eq_refl ltac:(lia))
           1%nat (SectionData (Some 0%nat) [V3 1 0 0; V3 2 0 0]) eq_refl).
Defined.

Lemma unravel_topology_witness :
  length twig = length twig ∧
  ∀ (k : nat) d, twig !! k = Some d →
    ∃ new_section,
      twig !! k = Some new_section ∧ sparent new_section = sparent d ∧
      (spoints d ≠ [] → length (spoints new_section) = length (spoints d)).
Proof.
  apply (unravel_topology eig_diag (λ _, inr twig) empty_world "twig.swc" 5 twig twig
           eq_refl (unravel_twig empty_world "twig.swc" 5 _ eq_refl ltac:(lia))).
Defined.

(** C5, as it is stated, fails on a section without points: the section of
    the output has one point, the last point of its parent. *)
Lemma empty_section_gains_a_point :
  ∃ out d new_section,
    (unravel eig_diag (λ _, inr gap) "gap.h5" 5 empty_world).1 = inr out ∧
    gap !! 1%nat = Some d ∧ out !! 1%nat = Some new_section ∧
    sparent new_section = sparent d ∧
    length (spoints new_section) ≠ length (spoints d).
Proof.
  eexists _, _, _. split; [by apply unravel_gap|].
  split; [done|]. split; [done|]. split; [done|]. simpl. lia.
Qed.

Lemma window_interval_witness :
  let σ := World {[1%positive := line]} [] ∅ in
  let acc := [V3 0 0 0; V3 1 0 0] in
  let ws := Z.max 0 (Z.of_nat 2 - 1 - 1) in
  let we := Z.min (Z.of_nat (length line)) (Z.of_nat 2 + 1 + 1) in
  let W := take (Z.to_nat (we - ws)) (drop (Z.to_nat ws) line) in
  (0 ≤ ws ∧ ws < we ∧ we ≤ Z.of_nat (length line))%Z ∧
  Z.of_nat (length W) = (we - ws)%Z ∧
  (∀ j : nat, (Z.of_nat j < we - ws)%Z → W !! j = line !! (Z.to_nat ws + j)%nat) ∧
  ∃ p q,
    line !! 2%nat = Some p ∧ line !! (2 - 1)%nat = Some q ∧
    (1%Z = 0%Z → W = [q; p]) ∧
    heap (unravel_point eig_diag 1%positive (length line) 1 acc 2 σ).2
      !! fresh (dom (heap σ)) = Some (centred W) ∧
    (unravel_point eig_diag 1%positive (length line) 1 acc 2 σ).1 =
      bindE (principal_direction eig_diag W) (λ direction,
      bindE (item acc (2 - 1)) (λ prev,
      inr (acc ++ [vadd (offset (vsub p q) direction) prev]))).
Proof.
  intros σ acc.
  apply (window_interval eig_diag σ 1%positive line 1 acc 2);
    [lia|simpl; lia|apply lookup_singleton_eq].
Defined.

Lemma window_holds_segment_witness :
  let σ := World {[1%positive := line]} [] ∅ in
  (window_start (Z.of_nat 2) 1 ≤ Z.of_nat 2 - 1)%Z ∧
  (Z.of_nat 2 + 1 ≤ window_end (Z.of_nat (length line)) (Z.of_nat 2) 1)%Z ∧
  (∃ j : nat, window line 2 1 !! j = line !! (2 - 1)%nat ∧
              window line 2 1 !! S j = line !! 2%nat) ∧
  (2 ≤ length (window line 2 1))%nat ∧
  (_get_principal_direction eig_diag
     (View 1%positive (window_start (Z.of_nat 2) 1)
        (window_end (Z.of_nat (length line)) (Z.of_nat 2) 1)) σ).1 =
    principal_direction eig_diag (window line 2 1) ∧
  heap (unravel_point eig_diag 1%positive (length line) 1 [V3 0 0 0; V3 1 0 0] 2 σ).2
    !! fresh (dom (heap σ)) = Some (centred (window line 2 1)) ∧
  (2 ≤ length (centred (window line 2 1)))%nat.
Proof.
  intros σ.
  apply (window_holds_segment eig_diag σ 1%positive line 1 [V3 0 0 0; V3 1 0 0] 2);
    [lia|simpl; lia|apply lookup_singleton_eq].
Defined.

Lemma unravel_input_untouched_witness :
  (∃ morph σ1,
     Morphology (λ _, inr twig) "twig.swc" empty_world = (inr morph, σ1) ∧
     represents σ1 morph twig ∧
     heap σ1 ⊆ heap (unravel eig_diag (λ _, inr twig) "twig.swc" 5 empty_world).2 ∧
     represents (unravel eig_diag (λ _, inr twig) "twig.swc" 5 empty_world).2 morph twig) ∧
  (∀ (σ0 : world R) (v : view), heap σ0 ⊆ heap (_get_principal_direction eig_diag v σ0).2).
Proof.
  apply (unravel_input_untouched eig_diag (λ _, inr twig) empty_world "twig.swc" 5 twig
           eq_refl).
Defined.

Lemma straight_line_unchanged_witness :
  (unravel eig_diag (λ _, inr [SectionData None line]) "line.swc" 1 empty_world).1 =
    inr [SectionData None line].
Proof.
  apply (straight_line_unchanged eig_diag (λ _, inr [SectionData None line]) empty_world
           "line.swc" (λ c _, eig_diag_correct c 0 0) eq_refl).
Defined.

Lemma origin_ne_unit : V3 0 0 0 ≠ V3 1 0 0.
Proof. intros [= H]. lra. Qed.

Lemma two_points_unchanged_witness :
  let section := SectionData None [V3 0 0 0; V3 1 0 0] in
  let read : string → exn + list (section_data R) := λ _, inr [section] in
  (∀ (σ : world R) filename,
     read filename = inr [section] →
     (unravel eig_diag read filename 5 σ).1 = inr [section]) ∧
  (∀ (σ : world R) filename ds out (k : nat),
     read filename = inr ds →
     (unravel eig_diag read filename 5 σ).1 = inr out →
     ds !! k = Some section → out !! k = Some section).
Proof.
  intros section read.
  apply (two_points_unchanged eig_diag read (V3 0 0 0) (V3 1 0 0) 5
           ltac:(lia) origin_ne_unit (eig_diag_two_points 0 1)).
Defined.

(** C7, as it is stated, fails in the arithmetic of the program: for the
    two points (0,0,0) and (1e20,0,0) the squares of the centred
    coordinates are infinite in binary32, the eigen-solver raises, and so
    does unravel. *)
Lemma two_points_overflow :
  (0 =? 100000002004087734272)%float = false ∧
  round32 100000002004087734272%float = 100000002004087734272%float ∧
  gram (centred far) =
    (M3 (V3 infinity 0 0) (V3 0 0 0) (V3 0 0 0))%float ∧
  (unravel eig32 (λ _, inr [SectionData None far]) "far.swc" 5 (World ∅ [] ∅)).1 =
    inl LinAlgError.
Proof.
  split; [reflexivity|]. split; [reflexivity|]. split; [vm_compute; reflexivity|].
  rewrite unravel_fst. vm_compute. reflexivity.
Qed.

Lemma first_segment_collapses_witness :
  ∃ new0 new1 new2,
    (unravel eig_diag (λ _, inr [SectionData None bent]) "bent.swc" 5 empty_world).1 =
      inr [SectionData None [new0; new1; new2]] ∧
    norm (vsub new1 new0) = 0 ∧
    norm (vsub (V3 0 1 0) (V3 0 (-1) 0)) = 2.
Proof.
  apply (first_segment_collapses eig_diag (λ _, inr [SectionData None bent]) empty_world
           "bent.swc" (eig_diag_correct 6 2 0) eq_refl).
Defined.

Lemma sign_resolution_zeroes_witness :
  ∃ direction,
    principal_direction eig_diag (window bent 1 5) = inr direction ∧
    let s := vsub (V3 0 1 0) (V3 0 (-1) 0) in
    let d := rescale s direction in
    dot s d = 0 ∧ d ≠ vzero ∧ resolve_sign s d = vzero ∧ resolve_sign s d ≠ d.
Proof.
  apply (sign_resolution_zeroes eig_diag (eig_diag_correct 6 2 0)).
Defined.

Lemma outcome_good :
  outcome eig_diag example_read example_write example_join example_basename
    "in" "out" 5 "good.swc" = inr twig.
Proof.
  unfold outcome, unravelled_file.
  change (example_read _) with (inr twig : exn + list (section_data R)).
  cbn [bindE]. rewrite unravelled_morph_twig by lia. done.
Qed.

Lemma outcome_bad :
  outcome eig_diag example_read example_write example_join example_basename
    "in" "out" 5 "bad.swc" = inl (MorphioError "corrupt").
Proof. reflexivity. Qed.

(* the file that cannot be parsed leaves its two warnings, and the file
   after it is unravelled and written *)
Lemma unravel_all_goes_on_witness :
  ∃ σ' : world R,
    unravel_all eig_diag example_read example_write example_listdir example_good_ext
      example_join example_basename "in" "out" 5 empty_world = (inr (), σ') ∧
    logs σ' = [Info "bad.swc"; Warning "Unravelling bad.swc failed";
               WarningExc (MorphioError "corrupt"); Info "good.swc"] ∧
    outdir σ' = {["out/good.swc" := twig]}.
Proof.
  destruct (unravel_all_goes_on eig_diag example_read example_write example_listdir
              example_good_ext example_join example_basename empty_world "in" "out" 5
              ["bad.swc"; "notes.txt"; "good.swc"] eq_refl)
    as (σ' & Hrun & Hlogs & Hout & _).
  exists σ'. split; [exact Hrun|]. split.
  - rewrite Hlogs.
    change (List.filter _ _) with ["bad.swc"; "good.swc"].
    cbn [fmap list_fmap concat]. unfold records_of.
    rewrite outcome_bad, outcome_good. reflexivity.
  - rewrite Hout.
    change (List.filter _ _) with ["bad.swc"; "good.swc"].
    cbn [foldl]. unfold written. rewrite outcome_bad, outcome_good. reflexivity.
Defined.
End Witnesses.


(** ** When unravel returns, and what it raises *)

Section Failures.
Context {F : Type} {SF : Scalar F}.
Variable eig : mat3 F → option (vec3 F * mat3 F).
Variable read_morphology : string → exn + list (section_data F).
Implicit Types (σ : world F) (ds new_morph out : list (section_data F)) (H : Z)
  (pts acc : ndarray F).

Lemma segment_step_eig pts H ups i :
  segment_step eig pts H ups i → is_Some (eig (gram (centred (window pts i H)))).
Proof.
  intros (d & _ & _ & _ & Hd & _). unfold principal_direction in Hd.
  by destruct (eig _).
Qed.

(** X1. Once the file is read, with parents before their children, unravel
    returns a tree exactly when every root section has a point and the
    eigen-solver returns on every window of every section. *)
Theorem unravel_returns_iff σ filename H ds :
  read_morphology filename = inr ds →
  (∀ k d p, ds !! k = Some d → sparent d = Some p → p < k) →
  (∃ out, (unravel eig read_morphology filename H σ).1 = inr out) ↔
  (∀ k d, ds !! k = Some d →
     eig_returns eig H (spoints d) ∧ (sparent d = None → spoints d ≠ [])).
Proof.
  intros Hread Hwf. split.
  - intros [out Hrun] k d Hk.
    apply (unravel_inr _ _ _ _ _ _ _ Hread) in Hrun.
    apply unravelled_morph_inr in Hrun as [_ Hsec].
    destruct (Hsec k d Hk) as (first & ups & before & _ & Hups & Hfirst & _).
    apply unravelled_inr in Hups as (_ & _ & Hsteps). split.
    + intros i Hi. eapply segment_step_eig, Hsteps, Hi.
    + intros Hroot Hnil. apply (first_point_root _ _ _ Hroot) in Hfirst.
      by rewrite Hnil in Hfirst.
  - intros Hok. apply (unravel_returns eig read_morphology σ filename H ds Hread).
    intros k d Hk. destruct (Hok k d Hk) as [He Hroot]. split; [done|].
    destruct (sparent d) as [p|] eqn:Hp; [by eapply Hwf|by apply Hroot].
Qed.

Lemma next_points_inl pts H acc i e :
  next_points eig pts H acc i = inl e → e = IndexError ∨ e = LinAlgError.
Proof.
  unfold next_points, principal_direction, item.
  destruct (eig _) as [[w v]|]; [|intros [= <-]; by right]. simpl.
  destruct (pts !! i); [|intros [= <-]; by left]. simpl.
  destruct (pts !! (i - 1)); [|intros [= <-]; by left]. simpl.
  destruct (acc !! (i - 1)); [done|intros [= <-]; by left].
Qed.

Lemma foldE_inl {A B} (f : A → B → exn + A) (P : exn → Prop) a l e :
  (∀ a b e, f a b = inl e → P e) → foldE f a l = inl e → P e.
Proof.
  intros Hf. revert a. induction l as [|b l IH]; intros a; [done|]. simpl.
  destruct (f a b) as [e'|a'] eqn:Hfab; simpl.
  - intros [= <-]. by eapply Hf.
  - apply IH.
Qed.

Lemma next_morph_inl H new_morph kpts e :
  next_morph eig H new_morph kpts = inl e → e = IndexError ∨ e = LinAlgError.
Proof.
  destruct kpts as [k pts]. unfold next_morph, item.
  destruct (new_morph !! k) as [d|]; [|intros [= <-]; by left]. simpl.
  destruct (first_point new_morph d) as [e'|first] eqn:Hfirst; simpl.
  - intros [= <-]. left. unfold first_point, item, item_last in Hfirst.
    destruct (sparent d) as [p|].
    + destruct (new_morph !! p) as [par|]; simpl in Hfirst; [|by injection Hfirst].
      destruct (last (spoints par)); [done|by injection Hfirst].
    + destruct (spoints d !! 0); [done|by injection Hfirst].
  - destruct (unravelled eig pts H first) as [e'|ups] eqn:Hups; [|done]. simpl.
    intros [= <-]. unfold unravelled in Hups.
    eapply (foldE_inl _ (λ e, e = IndexError ∨ e = LinAlgError)); [|exact Hups].
    intros. by eapply next_points_inl.
Qed.

(** X2. An exception that unravel raises is the one the reader of the file
    has raised, an IndexError or the LinAlgError of the eigen-solver. *)
Theorem unravel_raises_only σ filename H e :
  (unravel eig read_morphology filename H σ).1 = inl e →
  read_morphology filename = inl e ∨ e = IndexError ∨ e = LinAlgError.
Proof.
  rewrite unravel_fst. unfold unravelled_file.
  destruct (read_morphology filename) as [e'|ds]; simpl.
  - intros [= <-]. by left.
  - intros Hrun. right. unfold unravelled_morph in Hrun.
    eapply (foldE_inl _ (λ e, e = IndexError ∨ e = LinAlgError)); [|exact Hrun].
    intros. by eapply next_morph_inl.
Qed.
End Failures.


(** ** Wide windows *)

Section Wide.
Context {F : Type} {SF : Scalar F}.
Variable eig : mat3 F → option (vec3 F * mat3 F).
Variable read_morphology : string → exn + list (section_data F).
Implicit Types (σ : world F) (ds out : list (section_data F)) (H : Z) (pts ups : ndarray F).

(* a half length of point_count - 2 or more: the window is the section *)
Lemma window_whole pts H i :
  (Z.of_nat (length pts) - 2 ≤ H)%Z → 1 ≤ i < length pts → window pts i H = pts.
Proof.
  intros HH Hi. rewrite window_take_drop by lia.
  unfold window_start, window_end.
  replace (Z.max 0 (Z.of_nat i - H - 1)) with 0%Z by lia.
  replace (Z.min (Z.of_nat (length pts)) (Z.of_nat i + H + 1))
    with (Z.of_nat (length pts)) by lia.
  rewrite Z.sub_0_r, Nat2Z.id. simpl. by rewrite firstn_all.
Qed.

(** X4. With a half length of point_count - 2 or more, every segment of the
    section gets the principal direction of the whole section: each point of
    the output is the point before it plus that one direction, scaled for
    the length and then for the sign. *)
Theorem wide_window_one_direction σ filename H ds out k d new_section :
  read_morphology filename = inr ds →
  (unravel eig read_morphology filename H σ).1 = inr out →
  ds !! k = Some d → out !! k = Some new_section →
  (Z.of_nat (length (spoints d)) - 2 ≤ H)%Z → 2 ≤ length (spoints d) →
  ∃ direction,
    principal_direction eig (spoints d) = inr direction ∧
    ∀ i, 1 ≤ i < length (spoints d) →
      ∃ p q prev,
        spoints d !! i = Some p ∧ spoints d !! (i - 1) = Some q ∧
        spoints new_section !! (i - 1) = Some prev ∧
        spoints new_section !! i = Some (vadd (offset (vsub p q) direction) prev).
Proof.
  intros Hread Hrun Hk Hout HH Hlen.
  apply (unravel_inr _ _ _ _ _ _ _ Hread) in Hrun.
  apply unravelled_morph_inr in Hrun as [_ Hsec].
  destruct (Hsec k d Hk) as (first & ups & before & Hout' & Hups & _).
  rewrite Hout in Hout'. injection Hout' as ->. cbn [spoints].
  apply unravelled_inr in Hups as (_ & _ & Hsteps).
  destruct (Hsteps 1 ltac:(lia)) as (direction & _ & _ & _ & Hd & _).
  rewrite window_whole in Hd by lia.
  exists direction. split; [done|]. intros i Hi.
  destruct (Hsteps i Hi) as (d' & p & q & prev & Hd' & Hp & Hq & Hprev & Hnew).
  rewrite window_whole, Hd in Hd' by lia. injection Hd' as <-.
  by exists p, q, prev.
Qed.
End Wide.


(** ** The segments of the output, over the reals *)

Section Segments.
Local Open Scope R_scope.
Variable eig : mat3 R → option (vec3 R * mat3 R).
Variable read_morphology : string → exn + list (section_data R).
Implicit Types (σ : world R) (ds out : list (section_data R)) (H : Z) (p q : vec3 R).

(* the segment i - 1 -> i of the section k of the input and of the output *)
Lemma unravel_segment σ filename H ds out (k i : nat) d new_section p q new prev :
  read_morphology filename = inr ds →
  (unravel eig read_morphology filename H σ).1 = inr out →
  ds !! k = Some d → out !! k = Some new_section → (1 ≤ i)%nat →
  spoints d !! i = Some p → spoints d !! (i - 1)%nat = Some q →
  spoints new_section !! i = Some new → spoints new_section !! (i - 1)%nat = Some prev →
  ∃ direction,
    principal_direction eig (window (spoints d) i H) = inr direction ∧
    new = vadd (offset (vsub p q) direction) prev.
Proof.
  intros Hread Hrun Hk Hout Hi Hp Hq Hnew Hprev.
  apply (unravel_inr _ _ _ _ _ _ _ Hread) in Hrun.
  apply unravelled_morph_inr in Hrun as [_ Hsec].
  destruct (Hsec k d Hk) as (first & ups & before & Hout' & Hups & _).
  rewrite Hout in Hout'. injection Hout' as ->. cbn [spoints] in Hnew, Hprev.
  apply unravelled_inr in Hups as (_ & _ & Hsteps).
  apply lookup_lt_Some in Hp as Hlt.
  destruct (Hsteps i ltac:(lia)) as (d' & p' & q' & prev' & Hd' & Hp' & Hq' & Hprev' & Hnew').
  exists d'. split; [done|]. congruence.
Qed.

(** X5. In the tree that unravel returns, a segment has the length it had
    in the input whenever the principal direction of its window is neither
    null nor orthogonal to it; when the direction is orthogonal to it, the
    two ends of the segment coincide in the output. *)
Theorem unravel_segment_length σ filename H ds out (k i : nat) d new_section
    p q new prev :
  read_morphology filename = inr ds →
  (unravel eig read_morphology filename H σ).1 = inr out →
  ds !! k = Some d → out !! k = Some new_section → (1 ≤ i)%nat →
  spoints d !! i = Some p → spoints d !! (i - 1)%nat = Some q →
  spoints new_section !! i = Some new → spoints new_section !! (i - 1)%nat = Some prev →
  ∃ direction,
    principal_direction eig (window (spoints d) i H) = inr direction ∧
    (direction ≠ vzero → dot (vsub p q) direction ≠ 0 →
     norm (vsub new prev) = norm (vsub p q)) ∧
    (dot (vsub p q) direction = 0 → new = prev).
Proof.
  intros Hread Hrun Hk Hout Hi Hp Hq Hnew Hprev.
  destruct (unravel_segment σ filename H ds out k i d new_section p q new prev)
    as (direction & Hd & ->); try done.
  exists direction. split; [done|]. split.
  - intros Hne Hdot. rewrite vsub_vadd. by apply offset_norm.
  - intros Hdot. by rewrite offset_orthogonal, vadd_vzero.
Qed.

(** X6. In the tree that unravel returns, no segment points against the
    segment it comes from: their dot product is not negative. *)
Theorem unravel_segment_not_reversed σ filename H ds out (k i : nat) d new_section
    p q new prev :
  read_morphology filename = inr ds →
  (unravel eig read_morphology filename H σ).1 = inr out →
  ds !! k = Some d → out !! k = Some new_section → (1 ≤ i)%nat →
  spoints d !! i = Some p → spoints d !! (i - 1)%nat = Some q →
  spoints new_section !! i = Some new → spoints new_section !! (i - 1)%nat = Some prev →
  0 <= dot (vsub p q) (vsub new prev).
Proof.
  intros Hread Hrun Hk Hout Hi Hp Hq Hnew Hprev.
  destruct (unravel_segment σ filename H ds out k i d new_section p q new prev)
    as (direction & Hd & ->); try done.
  rewrite vsub_vadd. apply resolve_sign_nonneg.
Qed.
End Segments.


(** ** Translations, over the reals *)

Section Translations.
Local Open Scope R_scope.
Variable eig : mat3 R → option (vec3 R * mat3 R).
Variable read_morphology : string → exn + list (section_data R).
Implicit Types (σ : world R) (ds new_morph : list (section_data R)) (H : Z)
  (p q t : vec3 R) (pts acc : ndarray R).

Lemma foldl_vadd_acc a pts : foldl vadd a pts = vadd a (foldl vadd vzero pts).
Proof.
  revert a. induction pts as [|p pts IH]; intros a; simpl.
  - apply vec3_eq; cbn; ring.
  - rewrite (IH (vadd a p)), (IH (vadd vzero p)). apply vec3_eq; cbn; ring.
Qed.

Lemma sum_translate t pts :
  foldl vadd vzero (translate t pts) =
    vadd (foldl vadd vzero pts) (vscale t (INR (length pts))).
Proof.
  induction pts as [|p pts IH].
  - apply vec3_eq; cbn; ring.
  - cbn [translate fmap list_fmap foldl length].
    rewrite (foldl_vadd_acc (vadd vzero (vadd p t))), (foldl_vadd_acc (vadd vzero p)).
    fold (translate t pts). rewrite IH, S_INR. apply vec3_eq; cbn; ring.
Qed.

Lemma mean0_translate t pts : pts ≠ [] → mean0 (translate t pts) = vadd (mean0 pts) t.
Proof.
  intros Hne. unfold mean0. rewrite sum_translate. unfold translate.
  rewrite length_fmap.
  assert (INR (length pts) ≠ 0) as Hn.
  { apply not_0_INR. by destruct pts. }
  apply vec3_eq; cbn; field; done.
Qed.

(* the estimator centres the points: where they are does not matter *)
Lemma centred_translate t pts : centred (translate t pts) = centred pts.
Proof.
  destruct pts as [|p0 pts]; [done|]. unfold centred.
  rewrite mean0_translate by done. unfold sub_rows, translate.
  rewrite <- list_fmap_compose. apply list_fmap_ext. intros _ p _. simpl.
  apply vec3_eq; cbn; ring.
Qed.

Lemma py_slice_fmap {A B} (f : A → B) (l : list A) a b :
  py_slice (f <$> l) a b = f <$> py_slice l a b.
Proof. unfold py_slice. by rewrite length_fmap, fmap_take, fmap_drop. Qed.

Lemma window_translate t pts (i : nat) H :
  window (translate t pts) i H = translate t (window pts i H).
Proof. unfold window, translate. by rewrite py_slice_fmap, length_fmap. Qed.

Lemma principal_direction_translate t pts :
  principal_direction eig (translate t pts) = principal_direction eig pts.
Proof. unfold principal_direction. by rewrite centred_translate. Qed.

Lemma vsub_translate t p q : vsub (vadd p t) (vadd q t) = vsub p q.
Proof. apply vec3_eq; cbn; ring. Qed.

Lemma vadd_assoc p q t : vadd p (vadd q t) = vadd (vadd p q) t.
Proof. apply vec3_eq; cbn; ring. Qed.

Lemma item_fmap {A B} (f : A → B) (l : list A) i :
  item (f <$> l) i = map_result f (item l i).
Proof. unfold item. rewrite list_lookup_fmap. by destruct (l !! i). Qed.

Lemma item_last_fmap {A B} (f : A → B) (l : list A) :
  item_last (f <$> l) = map_result f (item_last l).
Proof. unfold item_last. rewrite fmap_last. by destruct (last l). Qed.

Lemma next_points_translate t pts H acc (i : nat) :
  next_points eig (translate t pts) H (translate t acc) i =
    map_result (translate t) (next_points eig pts H acc i).
Proof.
  unfold next_points. rewrite window_translate, principal_direction_translate.
  destruct (principal_direction eig (window pts i H)) as [e|d]; [done|]. cbn [bindE].
  unfold translate at 1 2 3. rewrite !item_fmap.
  destruct (item pts i) as [e|p]; [done|]. cbn [bindE map_result].
  destruct (item pts (i - 1)) as [e|q]; [done|]. cbn [bindE map_result].
  destruct (item acc (i - 1)) as [e|prev]; [done|]. cbn [bindE map_result].
  rewrite vsub_translate, vadd_assoc. unfold translate. by rewrite fmap_app.
Qed.

Lemma fold_next_points_translate t pts H acc (idx : list nat) :
  foldE (next_points eig (translate t pts) H) (translate t acc) idx =
    map_result (translate t) (foldE (next_points eig pts H) acc idx).
Proof.
  revert acc. induction idx as [|i idx IH]; intros acc; [done|]. simpl.
  rewrite next_points_translate.
  destruct (next_points eig pts H acc i) as [e|acc']; [done|]. simpl. apply IH.
Qed.

Lemma unravelled_translate t pts H first :
  unravelled eig (translate t pts) H (vadd first t) =
    map_result (translate t) (unravelled eig pts H first).
Proof.
  unfold unravelled. replace (length (translate t pts)) with (length pts)
    by (unfold translate; by rewrite length_fmap).
  apply (fold_next_points_translate t pts H [first]).
Qed.

Lemma first_point_translate t new_morph d :
  first_point (translate_section t <$> new_morph) (translate_section t d) =
    map_result (λ p, vadd p t) (first_point new_morph d).
Proof.
  unfold first_point. cbn [translate_section sparent spoints].
  destruct (sparent d) as [p|].
  - rewrite item_fmap. destruct (item new_morph p) as [e|par]; [done|].
    cbn [bindE map_result translate_section spoints]. apply item_last_fmap.
  - apply item_fmap.
Qed.

Lemma next_morph_translate t H new_morph (k : nat) pts :
  next_morph eig H (translate_section t <$> new_morph) (k, translate t pts) =
    map_result (fmap (translate_section t)) (next_morph eig H new_morph (k, pts)).
Proof.
  unfold next_morph. rewrite item_fmap.
  destruct (item new_morph k) as [e|d]; [done|]. cbn [bindE map_result].
  rewrite first_point_translate.
  destruct (first_point new_morph d) as [e|first]; [done|]. cbn [bindE map_result].
  rewrite unravelled_translate.
  destruct (unravelled eig pts H first) as [e|ups]; [done|]. cbn [bindE map_result].
  by rewrite list_fmap_insert.
Qed.

Lemma fold_next_morph_translate t H (rest : list (section_data R)) new_morph (k0 : nat) :
  foldE (next_morph eig H) (translate_section t <$> new_morph)
    (zip (seq k0 (length (translate_section t <$> rest)))
         (spoints <$> (translate_section t <$> rest))) =
  map_result (fmap (translate_section t))
    (foldE (next_morph eig H) new_morph (zip (seq k0 (length rest)) (spoints <$> rest))).
Proof.
  revert new_morph k0. induction rest as [|d rest IH]; intros new_morph k0; [done|].
  cbn [fmap list_fmap length seq zip_with foldE translate_section spoints].
  rewrite next_morph_translate.
  destruct (next_morph eig H new_morph (k0, spoints d)) as [e|nm']; [done|].
  cbn [bindE map_result]. apply IH.
Qed.

(** X7. unravel commutes with translations: for a file whose sections are
    those of another file with every point moved by t, unravel returns the
    tree it returns for the other file with every point moved by t, and
    raises what it raises for it. *)
Theorem unravel_translation σ σ' filename filename' H t ds :
  read_morphology filename = inr ds →
  read_morphology filename' = inr (translate_section t <$> ds) →
  (unravel eig read_morphology filename' H σ').1 =
    map_result (fmap (translate_section t))
      ((unravel eig read_morphology filename H σ).1).
Proof.
  intros Hread Hread'. rewrite !unravel_fst. unfold unravelled_file.
  rewrite Hread, Hread'. cbn [bindE]. apply fold_next_morph_translate.
Qed.

(** X8. The estimator gives the same direction for an array and for the
    array with every row moved by t, whatever the slice is. *)
Theorem get_principal_direction_translation σ σ' (l l' : loc) pts t (s e : Z) :
  heap σ !! l = Some pts → heap σ' !! l' = Some (translate t pts) →
  (_get_principal_direction eig (View l' s e) σ').1 =
    (_get_principal_direction eig (View l s e) σ).1.
Proof.
  intros Hl Hl'.
  rewrite (run_get_principal_direction _ _ _ _ _ _ Hl),
    (run_get_principal_direction _ _ _ _ _ _ Hl').
  cbn [fst]. unfold translate. rewrite py_slice_fmap.
  apply principal_direction_translate.
Qed.
End Translations.


(** ** The matrix given to the eigen-solver *)

Section Covariance.
Local Open Scope R_scope.
Implicit Types (p x m : vec3 R) (pts X : ndarray R).

Lemma fsum_cons (a : R) (l : list R) : fsum (a :: l) = a + fsum l.
Proof.
  unfold fsum. cbn [foldl f0 fadd R_scalar].
  assert (∀ b l, foldl Rplus b l = b + foldl Rplus 0 l) as Hacc.
  { clear. intros b l. revert b. induction l as [|c l IH]; intros b; simpl; [ring|].
    rewrite (IH (b + c)), (IH (0 + c)). ring. }
  rewrite (Hacc (0 + a)). ring.
Qed.

Lemma gram_entry_cons p X a b :
  gram_entry (p :: X) a b = coord p a * coord p b + gram_entry X a b.
Proof. unfold gram_entry. cbn [fmap list_fmap]. apply fsum_cons. Qed.

Lemma gram_entry_comm X a b : gram_entry X a b = gram_entry X b a.
Proof.
  induction X as [|p X IH]; [done|]. rewrite !gram_entry_cons, IH. ring.
Qed.

Lemma entry_gram X a b : entry (gram X) a b = gram_entry X a b.
Proof. by destruct a, b. Qed.

Lemma quadratic_form X x :
  dot x (mulv (gram X) x) = fsum ((λ p, dot p x * dot p x) <$> X).
Proof.
  induction X as [|p X IH].
  - rewrite dot_R. cbn. ring.
  - cbn [fmap list_fmap]. rewrite fsum_cons, <- IH, !dot_R.
    cbn [mulv gram gram_row vx vy vz row0 row1 row2]. rewrite !dot_R.
    unfold gram_row. cbn [vx vy vz]. rewrite !gram_entry_cons. cbn [coord]. ring.
Qed.

Lemma fsum_squares_nonneg (f : vec3 R → R) X : 0 <= fsum ((λ p, f p * f p) <$> X).
Proof.
  induction X as [|p X IH]; [cbn; lra|]. cbn [fmap list_fmap]. rewrite fsum_cons. nra.
Qed.

Lemma sum_sub_rows X m :
  foldl vadd vzero (sub_rows X m) =
    vsub (foldl vadd vzero X) (vscale m (INR (length X))).
Proof.
  induction X as [|p X IH].
  - apply vec3_eq; cbn; ring.
  - cbn [sub_rows fmap list_fmap foldl length].
    rewrite (foldl_vadd_acc (vadd vzero (vsub p m))), (foldl_vadd_acc (vadd vzero p)).
    fold (sub_rows X m). rewrite IH, S_INR. apply vec3_eq; cbn; ring.
Qed.

Lemma gram_symmetric_psd X :
  (∀ a b, entry (gram X) a b = entry (gram X) b a) ∧
  (∀ x, 0 <= dot x (mulv (gram X) x)).
Proof.
  split.
  - intros a b. rewrite !entry_gram. apply gram_entry_comm.
  - intros x. rewrite quadratic_form. apply (fsum_squares_nonneg (λ p, dot p x)).
Qed.

Lemma centred_sum_zero pts : pts ≠ [] → foldl vadd vzero (centred pts) = vzero.
Proof.
  intros Hne. unfold centred. rewrite sum_sub_rows. unfold mean0.
  assert (INR (length pts) ≠ 0) as Hn by (apply not_0_INR; by destruct pts).
  apply vec3_eq; cbn; field; done.
Qed.

(** X9. In a call of the estimator on a slice of an array, there is one
    matrix C on which alone the result depends through the eigen-solver,
    whatever the eigen-solver is: C is np.dot(X.T, X) for the array X that
    the call leaves in the heap, C is symmetric and positive semi-definite,
    and the rows of X sum to zero when the slice is not empty. *)
Theorem covariance_symmetric_psd (σ : world R) (l : loc) pts (s e : Z) :
  heap σ !! l = Some pts →
  ∃ X C,
    (∀ eig,
       heap (_get_principal_direction eig (View l s e) σ).2 !! fresh (dom (heap σ)) =
         Some X ∧
       (_get_principal_direction eig (View l s e) σ).1 =
         match eig C with
         | Some (w, v) => inr (column v (argmax w))
         | None => inl LinAlgError
         end) ∧
    C = gram X ∧
    (∀ a b, entry C a b = entry C b a) ∧
    (∀ x, 0 <= dot x (mulv C x)) ∧
    (py_slice pts s e ≠ [] → foldl vadd vzero X = vzero).
Proof.
  intros Hl. exists (centred (py_slice pts s e)), (gram (centred (py_slice pts s e))).
  split; [|split; [done|]].
  - intros eig. rewrite (run_get_principal_direction eig _ _ _ _ _ Hl). simpl.
    split; [apply lookup_insert_eq|done].
  - destruct (gram_symmetric_psd (centred (py_slice pts s e))) as [Hsym Hpsd].
    split; [done|]. split; [done|]. apply centred_sum_zero.
Qed.
End Covariance.


(** ** A half length of zero *)

Section ZeroWindow.
Local Open Scope R_scope.
Variable eig : mat3 R → option (vec3 R * mat3 R).
Variable read_morphology : string → exn + list (section_data R).
Implicit Types (σ : world R) (ds : list (section_data R)) (p q : vec3 R)
  (pts : ndarray R).

Lemma fold_next_points_zero pts (n a : nat) :
  segments_ok eig pts → (1 ≤ a)%nat → (a + n ≤ length pts)%nat →
  foldE (next_points eig pts 0) (take a pts) (seq a n) = inr (take (a + n) pts).
Proof.
  intros Hok. revert a. induction n as [|n IH]; intros a Ha Hlen.
  { by rewrite Nat.add_0_r. }
  destruct (lookup_lt_is_Some_2 pts a ltac:(lia)) as [p Hp].
  destruct (lookup_lt_is_Some_2 pts (a - 1) ltac:(lia)) as [q Hq].
  destruct (Hok a p q Ha Hp Hq) as [Hne Hcorrect].
  rewrite gram_two_points in Hcorrect.
  destruct (principal_direction_rank_one eig [q; p] _ _ (gram_two_points q p)
              ltac:(lra) (vsub_ne q p (not_eq_sym Hne)) Hcorrect) as (t & Ht & Hd).
  cbn [seq foldE].
  rewrite (next_points_parallel eig pts 0 (take a pts) a p q t);
    [|exact Hp|exact Hq| |exact Ht|].
  - cbn [bindE]. rewrite <- (take_S_r pts a p Hp).
    replace (a + S n)%nat with (S a + n)%nat by lia. apply IH; lia.
  - rewrite lookup_take_lt by lia. done.
  - by rewrite (window_zero pts a p q Ha Hq Hp).
Qed.

Lemma unravelled_zero pts first :
  pts !! 0%nat = Some first → segments_ok eig pts → unravelled eig pts 0 first = inr pts.
Proof.
  intros H0 Hok. apply lookup_lt_Some in H0 as Hlen. unfold unravelled.
  replace [first] with (take 1 pts) by (destruct pts; simplify_eq/=; by rewrite take_0).
  rewrite fold_next_points_zero by (done || lia).
  replace (1 + (length pts - 1))%nat with (length pts) by lia. by rewrite firstn_all.
Qed.

Lemma fold_next_morph_zero ds (rest : list (section_data R)) (k0 : nat) :
  (∀ (i : nat) d, rest !! i = Some d → ds !! (k0 + i)%nat = Some d) →
  (∀ (k : nat) d, ds !! k = Some d →
     segments_ok eig (spoints d) ∧ spoints d ≠ [] ∧
     ∀ j : nat, sparent d = Some j →
          ∃ par, ds !! j = Some par ∧ last (spoints par) = spoints d !! 0%nat) →
  foldE (next_morph eig 0) ds (zip (seq k0 (length rest)) (spoints <$> rest)) = inr ds.
Proof.
  intros Hrest Hok. revert k0 Hrest. induction rest as [|d rest IH]; intros k0 Hrest.
  { done. }
  cbn [length seq fmap list_fmap zip_with foldE].
  pose proof (Hrest 0%nat d eq_refl) as Hk0. rewrite Nat.add_0_r in Hk0.
  destruct (Hok k0 d Hk0) as (Hseg & Hne & Hpar).
  destruct (spoints d !! 0%nat) as [first|] eqn:H0;
    [|by destruct (spoints d)].
  assert (first_point ds d = inr first) as Hfirst.
  { unfold first_point, item, item_last. destruct (sparent d) as [j|].
    - destruct (Hpar j eq_refl) as (par & -> & Hlast). cbn [bindE]. by rewrite Hlast.
    - by rewrite H0. }
  unfold next_morph at 1, item. rewrite Hk0. cbn [bindE]. rewrite Hfirst. cbn [bindE].
  rewrite (unravelled_zero _ _ H0 Hseg). cbn [bindE].
  replace (<[k0:=_]> ds) with ds.
  - apply IH. intros i d' Hi. replace (S k0 + i)%nat with (k0 + S i)%nat by lia.
    by apply Hrest.
  - symmetry. apply list_insert_id. rewrite Hk0. by destruct d.
Qed.

(** X10. With a half length of 0, unravel returns the tree of the file as
    it is, when every section has a point, every section but the roots
    starts at the last point of its parent, the two ends of every segment
    differ and the eigen-solver is right on the matrix of the two. *)
Theorem zero_window_identity σ filename ds :
  read_morphology filename = inr ds →
  (∀ (k : nat) d, ds !! k = Some d →
     segments_ok eig (spoints d) ∧ spoints d ≠ [] ∧
     ∀ j : nat, sparent d = Some j →
          ∃ par, ds !! j = Some par ∧ last (spoints par) = spoints d !! 0%nat) →
  (unravel eig read_morphology filename 0 σ).1 = inr ds.
Proof.
  intros Hread Hok. rewrite unravel_fst. unfold unravelled_file. rewrite Hread.
  cbn [bindE]. by apply (fold_next_morph_zero ds ds 0).
Qed.
End ZeroWindow.


(** ** Sections of at most one point *)

Section Short.
Context {F : Type} {SF : Scalar F}.
Variable eig : mat3 F → option (vec3 F * mat3 F).
Variable read_morphology : string → exn + list (section_data F).
Implicit Types (σ : world F) (ds out : list (section_data F)) (H : Z).

(** X11. A section of at most one point comes out with exactly one point,
    whatever the eigen-solver is: its own point for a root, and the last
    point of its parent in the output otherwise, also when it had no point
    at all (parents coming before their children). *)
Theorem short_section_one_point σ filename H ds out k d :
  read_morphology filename = inr ds →
  (∀ k d p, ds !! k = Some d → sparent d = Some p → p < k) →
  (unravel eig read_morphology filename H σ).1 = inr out →
  ds !! k = Some d → length (spoints d) ≤ 1 →
  ∃ first,
    out !! k = Some (SectionData (sparent d) [first]) ∧
    match sparent d with
    | None => spoints d = [first]
    | Some p => ∃ new_parent, out !! p = Some new_parent ∧
                              last (spoints new_parent) = Some first
    end.
Proof.
  intros Hread Hwf Hrun Hk Hlen.
  apply (unravel_inr _ _ _ _ _ _ _ Hread) in Hrun.
  apply unravelled_morph_inr in Hrun as [_ Hsec].
  destruct (Hsec k d Hk) as (first & ups & before & Hout & Hups & Hfirst & Hbefore).
  apply unravelled_inr in Hups as (Hl & H0 & _).
  exists first.
  assert (ups = [first]) as ->.
  { destruct ups as [|u [|u' ups]]; simpl in Hl; [lia| |lia]. by injection H0 as ->. }
  split; [done|]. destruct (sparent d) as [p|] eqn:Hp.
  - destruct (first_point_child _ _ _ _ Hp Hfirst) as (par & Hpar & Hlast).
    exists par. split; [|done]. rewrite <- Hbefore; [done|]. by eapply Hwf.
  - apply (first_point_root _ _ _ Hp) in Hfirst.
    destruct (spoints d) as [|x [|y pts]]; simpl in Hlen, Hfirst; [done| |lia].
    by injection Hfirst as ->.
Qed.
End Short.

(** ** What the batch leaves alone *)

Section BatchEdges.
Context {F : Type} {SF : Scalar F}.
Variable eig : mat3 F → option (vec3 F * mat3 F).
Variable read_morphology : string → exn + list (section_data F).
Variable write_morphology : list (section_data F) → string → option exn.
Variable listdir : string → exn + list string.
Variable good_ext : string → bool.
Variable path_join : string → string → string.
Variable basename : string → string.
Implicit Types (σ : world F) (H : Z) (f input_dir output_dir : string).

(** X12. unravel_all raises only when the directory cannot be listed: it
    raises the exception of os.listdir, and nothing has been logged or
    written. *)
Theorem unravel_all_raises_only σ input_dir output_dir H e σ' :
  unravel_all eig read_morphology write_morphology listdir good_ext path_join
    basename input_dir output_dir H σ = (inl e, σ') →
  listdir input_dir = inl e ∧ σ' = σ.
Proof.
  unfold unravel_all. destruct (listdir input_dir) as [e'|names].
  - unfold raise. intros [= -> ->]. done.
  - destruct (run_files eig read_morphology write_morphology path_join basename σ
                input_dir output_dir H (List.filter good_ext names)) as (σ1 & -> & _).
    done.
Qed.

Lemma elem_of_filter_good names f :
  f ∈ List.filter good_ext names → f ∈ names ∧ good_ext f = true.
Proof. rewrite !list_elem_of_In. apply filter_In. Qed.

Lemma elem_of_concat_fmap_inv {A B} (g : A → list B) (l : list A) b :
  b ∈ concat (g <$> l) → ∃ a, a ∈ l ∧ b ∈ g a.
Proof.
  induction l as [|a l IH]; simpl; [by intros ?%elem_of_nil|].
  intros [Hb|Hb]%elem_of_app.
  - exists a. split; [left|done].
  - destruct (IH Hb) as (a' & Ha' & Hb'). exists a'. split; [by right|done].
Qed.

(** X13. A name of the directory that good_ext rejects is left alone: the
    files announced in the log and the files written are those of names
    that good_ext accepts. *)
Theorem unravel_all_skips_others σ input_dir output_dir H names r σ' :
  listdir input_dir = inr names →
  unravel_all eig read_morphology write_morphology listdir good_ext path_join
    basename input_dir output_dir H σ = (r, σ') →
  (∀ f, Info f ∈ logs σ' →
     Info f ∈ logs σ ∨ (f ∈ names ∧ good_ext f = true)) ∧
  (∀ path, outdir σ' !! path ≠ outdir σ !! path →
     ∃ f, f ∈ names ∧ good_ext f = true ∧ path = path_join output_dir (basename f)).
Proof.
  intros Hls. unfold unravel_all. rewrite Hls.
  destruct (run_files eig read_morphology write_morphology path_join basename σ
              input_dir output_dir H (List.filter good_ext names))
    as (σ1 & -> & Hlogs & Hout).
  intros [= <- <-]. split.
  - intros f. rewrite Hlogs. intros [Hf|Hf]%elem_of_app; [by left|]. right.
    apply elem_of_concat_fmap_inv in Hf as (f' & Hf' & Hrec).
    unfold records_of in Hrec. apply elem_of_cons in Hrec as [[= ->]|Hrec].
    + by apply elem_of_filter_good.
    + destruct (outcome _ _ _ _ _ _ _ _ _) as [e|m].
      * apply elem_of_cons in Hrec as [?|Hrec]; [done|].
        apply elem_of_cons in Hrec as [?|Hrec]; [done|]. by apply elem_of_nil in Hrec.
      * by apply elem_of_nil in Hrec.
  - intros path Hne. rewrite Hout in Hne.
    destruct (foldl _ _ _ !! path) as [m|] eqn:Hm.
    + apply written_lookup in Hm as [Hm|(f & Hf & -> & _)]; [by rewrite Hm in Hne|].
      apply elem_of_filter_good in Hf as [Hf Hg]. by exists f.
    + destruct (outdir σ !! path) as [m|] eqn:Hold; [|done].
      pose proof (written_is_Some eig read_morphology write_morphology path_join basename
                    input_dir output_dir H (List.filter good_ext names) (outdir σ) path
                    ltac:(by rewrite Hold; eauto)) as [m' Hm'].
      rewrite Hm' in Hm. done.
Qed.
End BatchEdges.


(** ** The further properties at concrete inputs *)

Section MoreWitnesses.
Local Open Scope R_scope.

Lemma unravel_returns_iff_witness :
  (∃ out, (unravel eig_diag (λ _, inr twig) "twig.swc" 5 empty_world).1 = inr out) ↔
  (∀ (k : nat) d, twig !! k = Some d →
     eig_returns eig_diag 5 (spoints d) ∧ (sparent d = None → spoints d ≠ [])).
Proof.
  apply (unravel_returns_iff eig_diag (λ _, inr twig) empty_world "twig.swc" 5 twig
           eq_refl twig_parents_first).
Defined.

Lemma unravel_bad_file :
  (unravel eig_diag example_read "in/bad.swc" 5 empty_world).1 =
    inl (MorphioError "corrupt").
Proof. rewrite unravel_fst. reflexivity. Qed.

Lemma unravel_raises_only_witness :
  example_read "in/bad.swc" = inl (MorphioError "corrupt") ∨
  MorphioError "corrupt" = IndexError ∨ MorphioError "corrupt" = LinAlgError.
Proof.
  apply (unravel_raises_only eig_diag example_read empty_world "in/bad.swc" 5
           (MorphioError "corrupt") unravel_bad_file).
Defined.

Lemma unravelled_line_wide : unravelled eig_diag line 5 (V3 0 0 0) = inr line.
Proof.
  destruct (principal_direction_diag eig_diag line 5 0 0 gram_line ltac:(lra) ltac:(lra)
              (eig_diag_correct 5 0 0)) as (t & Ht & Hd).
  unfold unravelled, line. cbn [length seq Nat.sub foldE].
  rewrite (next_points_parallel eig_diag _ 5 [V3 0 0 0] 1 (V3 1 0 0) (V3 0 0 0) t);
    [|done|done|done|nra|]; cycle 1.
  { etrans; [exact Hd|]. f_equal. apply along_first_axis. lra. }
  cbn [bindE app].
  rewrite (next_points_parallel eig_diag _ 5 _ 2 (V3 2 0 0) (V3 1 0 0) t);
    [|done|done|done|nra|]; cycle 1.
  { etrans; [exact Hd|]. f_equal. apply along_first_axis. lra. }
  cbn [bindE app].
  rewrite (next_points_parallel eig_diag _ 5 _ 3 (V3 3 0 0) (V3 2 0 0) t);
    [|done|done|done|nra|]; cycle 1.
  { etrans; [exact Hd|]. f_equal. apply along_first_axis. lra. }
  done.
Qed.

(* the three segments of the straight section, with a half length of 5 *)
Lemma wide_window_one_direction_witness :
  ∃ direction,
    principal_direction eig_diag line = inr direction ∧
    ∀ i : nat, (1 ≤ i < length line)%nat →
      ∃ p q prev,
        line !! i = Some p ∧ line !! (i - 1)%nat = Some q ∧
        line !! (i - 1)%nat = Some prev ∧
        line !! i = Some (vadd (offset (vsub p q) direction) prev).
Proof.
  apply (wide_window_one_direction eig_diag (λ _, inr [SectionData None line])
           empty_world "line.swc" 5 [SectionData None line] [SectionData None line]
           0 (SectionData None line) (SectionData None line) eq_refl
           (unravel_single eig_diag _ empty_world "line.swc" line 5 (V3 0 0 0) line
              eq_refl eq_refl unravelled_line_wide)
           eq_refl eq_refl); simpl; lia.
Defined.

Lemma covariance_symmetric_psd_witness :
  let σ := World {[1%positive := line]} [] ∅ in
  ∃ X C,
    (∀ eig,
       heap (_get_principal_direction eig (View 1%positive 0 3) σ).2
         !! fresh (dom (heap σ)) = Some X ∧
       (_get_principal_direction eig (View 1%positive 0 3) σ).1 =
         match eig C with
         | Some (w, v) => inr (column v (argmax w))
         | None => inl LinAlgError
         end) ∧
    C = gram X ∧
    (∀ a b, entry C a b = entry C b a) ∧
    (∀ x, 0 <= dot x (mulv C x)) ∧
    (py_slice line 0 3 ≠ [] → foldl vadd vzero X = vzero).
Proof.
  intros σ.
  apply (covariance_symmetric_psd σ 1%positive line 0 3), lookup_singleton_eq.
Defined.

Lemma unravel_segment_length_witness :
  ∃ direction,
    principal_direction eig_diag (window [V3 1 0 0; V3 2 0 0] 1 5) = inr direction ∧
    (direction ≠ vzero → dot (vsub (V3 2 0 0) (V3 1 0 0)) direction ≠ 0 →
     norm (vsub (V3 2 0 0) (V3 1 0 0)) = norm (vsub (V3 2 0 0) (V3 1 0 0))) ∧
    (dot (vsub (V3 2 0 0) (V3 1 0 0)) direction = 0 → V3 2 0 0 = V3 1 0 0).
Proof.
  apply (unravel_segment_length eig_diag (λ _, inr twig) empty_world "twig.swc" 5
           twig twig 1 1 (SectionData (Some 0%nat) [V3 1 0 0; V3 2 0 0])
           (SectionData (Some 0%nat) [V3 1 0 0; V3 2 0 0])
           (V3 2 0 0) (V3 1 0 0) (V3 2 0 0) (V3 1 0 0) eq_refl
           (unravel_twig empty_world "twig.swc" 5 _ eq_refl ltac:(lia))
           eq_refl eq_refl ltac:(lia) eq_refl eq_refl eq_refl eq_refl).
Defined.

Lemma unravel_segment_not_reversed_witness :
  0 <= dot (vsub (V3 2 0 0) (V3 1 0 0)) (vsub (V3 2 0 0) (V3 1 0 0)).
Proof.
  apply (unravel_segment_not_reversed eig_diag (λ _, inr twig) empty_world "twig.swc" 5
           twig twig 1 1 (SectionData (Some 0%nat) [V3 1 0 0; V3 2 0 0])
           (SectionData (Some 0%nat) [V3 1 0 0; V3 2 0 0])
           (V3 2 0 0) (V3 1 0 0) (V3 2 0 0) (V3 1 0 0) eq_refl
           (unravel_twig empty_world "twig.swc" 5 _ eq_refl ltac:(lia))
           eq_refl eq_refl ltac:(lia) eq_refl eq_refl eq_refl eq_refl).
Defined.

Lemma unravel_translation_witness :
  (unravel eig_diag example_read_moved "moved.swc" 5 empty_world).1 =
    map_result (fmap (translate_section shift))
      ((unravel eig_diag example_read_moved "twig.swc" 5 empty_world).1).
Proof.
  apply (unravel_translation eig_diag example_read_moved empty_world empty_world
           "twig.swc" "moved.swc" 5 shift twig eq_refl eq_refl).
Defined.

Lemma get_principal_direction_translation_witness :
  (_get_principal_direction eig_diag (View 1%positive 0 3)
     (World {[1%positive := translate shift line]} [] ∅)).1 =
  (_get_principal_direction eig_diag (View 1%positive 0 3)
     (World {[1%positive := line]} [] ∅)).1.
Proof.
  apply (get_principal_direction_translation eig_diag
           (World {[1%positive := line]} [] ∅)
           (World {[1%positive := translate shift line]} [] ∅)
           1%positive 1%positive line shift 0 3);
    apply lookup_singleton_eq.
Defined.

Lemma twig_continuous (k : nat) (d : section_data R) :
  twig !! k = Some d →
  segments_ok eig_diag (spoints d) ∧ spoints d ≠ [] ∧
  ∀ j : nat, sparent d = Some j →
    ∃ par, twig !! j = Some par ∧ last (spoints par) = spoints d !! 0%nat.
Proof.
  assert (∀ a b, a ≠ b → segments_ok eig_diag [V3 a 0 0; V3 b 0 0]) as Hseg.
  { intros a b Hab [|[|i]] p q Hi Hp Hq; [lia| |done].
    cbn in Hp, Hq. injection Hp as <-. injection Hq as <-. split.
    - intros [= ?]. lra.
    - apply eig_diag_two_points. }
  destruct k as [|[|k]]; intros Hk; cbn in Hk; [| |done]; injection Hk as <-.
  - split; [apply Hseg; lra|]. split; [done|]. intros j [=].
  - split; [apply Hseg; lra|]. split; [done|]. intros j [= <-]. by eexists.
Qed.

Lemma zero_window_identity_witness :
  (unravel eig_diag (λ _, inr twig) "twig.swc" 0 empty_world).1 = inr twig.
Proof.
  apply (zero_window_identity eig_diag (λ _, inr twig) empty_world "twig.swc" twig
           eq_refl twig_continuous).
Defined.

Lemma gap_parents_first (k : nat) (d : section_data R) (p : nat) :
  gap !! k = Some d → sparent d = Some p → (p < k)%nat.
Proof.
  destruct k as [|[|[|k]]]; intros Hk Hp; cbn in Hk; [| | |done];
    injection Hk as <-; [done|injection Hp as <-; lia..].
Qed.

Lemma short_section_one_point_witness :
  let out := [SectionData None [V3 0 0 0];
              SectionData (Some 0%nat) [V3 0 0 0];
              SectionData (Some 0%nat) [V3 0 0 0; V3 1 0 0]] in
  ∃ first,
    out !! 1%nat = Some (SectionData (Some 0%nat) [first]) ∧
    ∃ new_parent, out !! 0%nat = Some new_parent ∧
                  last (spoints new_parent) = Some first.
Proof.
  intros out.
  apply (short_section_one_point eig_diag (λ _, inr gap) empty_world "gap.h5" 5
           gap out 1 (SectionData (Some 0%nat) []) eq_refl gap_parents_first
           (unravel_gap empty_world "gap.h5" 5 _ eq_refl ltac:(lia)) eq_refl).
  simpl. lia.
Defined.

Lemma unravel_all_raises_only_witness :
  failing_listdir "in" = inl (OSError "no such directory") ∧ empty_world = empty_world.
Proof.
  apply (unravel_all_raises_only eig_diag example_read example_write failing_listdir
           example_good_ext example_join example_basename empty_world "in" "out" 5
           (OSError "no such directory") empty_world eq_refl).
Defined.

Lemma unravel_all_skips_others_witness :
  let σ' := (unravel_all eig_diag example_read example_write example_listdir
               example_good_ext example_join example_basename "in" "out" 5
               empty_world).2 in
  (∀ f, Info f ∈ logs σ' →
     Info f ∈ logs empty_world ∨
     (f ∈ ["bad.swc"; "notes.txt"; "good.swc"] ∧ example_good_ext f = true)) ∧
  (∀ path, outdir σ' !! path ≠ outdir empty_world !! path →
     ∃ f, f ∈ ["bad.swc"; "notes.txt"; "good.swc"] ∧ example_good_ext f = true ∧
          path = example_join "out" (example_basename f)).
Proof.
  apply (unravel_all_skips_others eig_diag example_read example_write example_listdir
           example_good_ext example_join example_basename empty_world "in" "out" 5
           ["bad.swc"; "notes.txt"; "good.swc"] _ _ eq_refl (surjective_pairing _)).
Defined.
End MoreWitnesses.
